(** * Proposer / seniority collection pipeline

    A shallow embedding of [Data_Collection/fetch_bill_seniority3.py]:
    the fetch client, the popup locator, the paginated scraper, the
    seniority resolver and the per-bill aggregator with its driver loop.

    Python values are modelled as follows.
    - [str]: the list of its Unicode code points ([Z]); comparison and
      ordering are code-point-wise, as in Python.
    - [int]: [Z].
    - exceptions: the [result] type; [try/except Exception] is [catch].
    - the network, the Unicode tables behind [\d], [\s] and [int()], and
      float arithmetic belong to the runtime, not to the script: they are
      type-class parameters ([Unicode], [Network], [FloatArith]);
      [binary64] is the float arithmetic of CPython.
    - a parsed page ([BeautifulSoup]) is the record of what each selector
      used by the script returns on it ([Soup]); the parser itself may
      raise on the text of a response. *)

From Stdlib Require Import ZArith List Ascii String Lia Sorted Permutation DecimalZ.
From Stdlib Require Import SpecFloat.
From stdpp Require Import base decidable option list sorting gmap.

Local Open Scope Z_scope.

(** ** Python strings *)

Module Py.

Definition str : Type := list Z.

(** Literals are written as in the source file (UTF-8) and decoded to
    code points. *)
Fixpoint utf8_decode (bs : list Z) : str :=
  match bs with
  | [] => []
  | b :: r =>
      if b <? 128 then b :: utf8_decode r
      else if b <? 224 then
        match r with
        | c1 :: r' => ((b - 192) * 64 + (c1 - 128)) :: utf8_decode r'
        | _ => []
        end
      else if b <? 240 then
        match r with
        | c1 :: c2 :: r' =>
            ((b - 224) * 4096 + (c1 - 128) * 64 + (c2 - 128)) :: utf8_decode r'
        | _ => []
        end
      else
        match r with
        | c1 :: c2 :: c3 :: r' =>
            ((b - 240) * 262144 + (c1 - 128) * 4096 + (c2 - 128) * 64 + (c3 - 128))
              :: utf8_decode r'
        | _ => []
        end
  end.

Definition u (s : string) : str :=
  utf8_decode (map (fun a => Z.of_N (N_of_ascii a)) (list_ascii_of_string s)).
Arguments u s%_string.

(** [x == y] on strings. *)
Definition str_eqb (x y : str) : bool := bool_decide (x = y).

(** [s.startswith(p)] and [p in s]. *)
Fixpoint startswith (p s : str) : bool :=
  match p, s with
  | [], _ => true
  | _ :: _, [] => false
  | a :: p', b :: s' => (a =? b) && startswith p' s'
  end.

Fixpoint contains (p s : str) : bool :=
  startswith p s ||
  match s with
  | [] => false
  | _ :: s' => contains p s'
  end.

(** Truthiness of a string: [if s]. *)
Definition truthy (s : str) : bool :=
  match s with [] => false | _ => true end.

(** [x < y] and [x <= y] on strings: lexicographic on code points. *)
Fixpoint str_ltb (x y : str) : bool :=
  match x, y with
  | _, [] => false
  | [], _ :: _ => true
  | a :: x', b :: y' => (a <? b) || ((a =? b) && str_ltb x' y')
  end.

Definition str_le (x y : str) : Prop := str_ltb y x = false.

(** [sep.join(xs)]. *)
Fixpoint join (sep : str) (xs : list str) : str :=
  match xs with
  | [] => []
  | [x] => x
  | x :: rest => x ++ sep ++ join sep rest
  end.

(** [str(n)], the formatting of an [int] in an f-string. *)
Fixpoint uint_digits (d : Decimal.uint) : str :=
  match d with
  | Decimal.Nil => []
  | Decimal.D0 d => 48 :: uint_digits d
  | Decimal.D1 d => 49 :: uint_digits d
  | Decimal.D2 d => 50 :: uint_digits d
  | Decimal.D3 d => 51 :: uint_digits d
  | Decimal.D4 d => 52 :: uint_digits d
  | Decimal.D5 d => 53 :: uint_digits d
  | Decimal.D6 d => 54 :: uint_digits d
  | Decimal.D7 d => 55 :: uint_digits d
  | Decimal.D8 d => 56 :: uint_digits d
  | Decimal.D9 d => 57 :: uint_digits d
  end.

Definition str_of_int (n : Z) : str :=
  match Z.to_int n with
  | Decimal.Pos d => uint_digits d
  | Decimal.Neg d => 45 :: uint_digits d
  end.

(** ** Exceptions *)

(** Only subclasses of [Exception] are modelled; the script never sees
    anything else unless the process is being torn down. *)
Inductive exn : Type :=
  | RequestFault (type_error : bool) (detail : str)
      (* raised by [SESSION.get]: timeout, connection error, ...; a
         [TypeError] from cache deserialisation when flagged *)
  | HTTPError (status : Z)            (* [resp.raise_for_status()] *)
  | IntValueError (literal : str)     (* [int(s)] refused [s] *)
  | RaiseNone                         (* [raise None] is a [TypeError] *)
  | ParserError (detail : str)        (* raised by the HTML parser *)
  | OverflowError                     (* a float result out of range *)
  | ZeroDivisionError.                (* division by zero *)

Definition is_TypeError (e : exn) : bool :=
  match e with
  | RequestFault b _ => b
  | RaiseNone => true
  | _ => false
  end.

Inductive result (A : Type) : Type :=
  | Ok (a : A)
  | Raise (e : exn).
Arguments Ok {A} a.
Arguments Raise {A} e.

Definition rbind {A B} (r : result A) (k : A -> result B) : result B :=
  match r with
  | Ok a => k a
  | Raise e => Raise e
  end.

(** ** Unicode tables and [int()] *)

Class Unicode := {
  (* the decimal value of a character of category Nd: the characters
     [\d] matches and [int()] accepts *)
  digit_value : Z -> option Z;
  (* [\s] *)
  is_space : Z -> bool;
  (* [sys.get_int_max_str_digits()], [None] when unlimited *)
  max_str_digits : option nat
}.

Section Unicode.
Context `{Unicode}.

Definition is_digit (c : Z) : bool :=
  match digit_value c with Some _ => true | None => false end.

Fixpoint int_digits (acc : Z) (s : str) : option Z :=
  match s with
  | [] => Some acc
  | c :: s' =>
      match digit_value c with
      | Some d => int_digits (10 * acc + d) s'
      | None => None
      end
  end.

(** [int(s)] for a string [s] of digits. *)
Definition int (s : str) : result Z :=
  let too_long :=
    match max_str_digits with
    | Some limit => (limit <? length s)%nat
    | None => false
    end in
  if too_long then Raise (IntValueError s)
  else
    match s with
    | [] => Raise (IntValueError s)
    | _ => match int_digits 0 s with
           | Some n => Ok n
           | None => Raise (IntValueError s)
           end
    end.

(** ** The regular expressions of the script

    Each pattern is a sequence of literal characters and greedy
    repetitions of a character class, with at most one capture group
    around a repetition.  Matching backtracks as [re] does. *)

Inductive atom : Type :=
  | Lit (c : Z)
  | Rep (cls : Z -> bool) (at_least_one : bool) (capture : bool).

Definition pattern : Type := list atom.

Fixpoint rep_match {R} (cls : Z -> bool) (k : str -> str -> option R)
    (consumed s : str) : option R :=
  match s with
  | c :: s' =>
      if cls c then
        match rep_match cls k (consumed ++ [c]) s' with
        | Some r => Some r
        | None => k consumed s
        end
      else k consumed s
  | [] => k consumed s
  end.

(** [match_here pat s g] matches [pat] at the start of [s] and returns
    group 1 ([g] if the pattern has no group). *)
Fixpoint match_here (pat : pattern) (s : str) (g : str) : option str :=
  match pat with
  | [] => Some g
  | Lit c :: pat' =>
      match s with
      | c' :: s' => if c =? c' then match_here pat' s' g else None
      | [] => None
      end
  | Rep cls at_least_one capture :: pat' =>
      rep_match cls
        (fun consumed rest =>
           if at_least_one && negb (truthy consumed) then None
           else match_here pat' rest (if capture then consumed else g))
        [] s
  end.

(** [m = re.search(pat, s)]; [Some g] stands for a match with
    [m.group(1) = g]. *)
Fixpoint re_search (pat : pattern) (s : str) : option str :=
  match match_here pat s [] with
  | Some g => Some g
  | None =>
      match s with
      | [] => None
      | _ :: s' => re_search pat s'
      end
  end.

Definition lits (s : str) : pattern := map Lit s.

Definition not_quote (c : Z) : bool := negb (c =? 39).

(* pattern: (\d+)\s*선 *)
Definition re_seniority : pattern :=
  [Rep is_digit true true; Rep is_space false false] ++ lits (u "선").

(* pattern: /\s*(\d+)\s*페이지 *)
Definition re_pager_total : pattern :=
  lits (u "/") ++
  [Rep is_space false false; Rep is_digit true true; Rep is_space false false] ++
  lits (u "페이지").

(* pattern: fnSearch\((\d+)\) *)
Definition re_fnSearch : pattern :=
  lits (u "fnSearch(") ++ [Rep is_digit true true] ++ lits (u ")").

(* pattern: billNo:\s*'([^']+)' *)
Definition re_billNo : pattern :=
  lits (u "billNo:") ++ [Rep is_space false false; Lit 39;
                         Rep not_quote true true; Lit 39].

(* pattern: billName:\s*'(G)' where the group G is [^'] repeated, possibly empty *)
Definition re_billName : pattern :=
  lits (u "billName:") ++ [Rep is_space false false; Lit 39;
                           Rep not_quote false true; Lit 39].

End Unicode.

(** The ASCII fragment of the tables, enough to run the script on texts
    whose digits and blanks are ASCII; CPython's default digit limit. *)
Definition ascii_digit_value (c : Z) : option Z :=
  if (48 <=? c) && (c <=? 57) then Some (c - 48) else None.

Definition ascii_is_space (c : Z) : bool :=
  ((9 <=? c) && (c <=? 13)) || ((28 <=? c) && (c <=? 32)).

Definition ascii_tables : Unicode :=
  {| digit_value := ascii_digit_value;
     is_space := ascii_is_space;
     max_str_digits := Some 4300%nat |}.

End Py.
Import Py.

(** ** Parsed pages *)

(** A tag: its attributes and [tag.get_text(sep, strip=True)] as a
    function of the separator. *)
Record Tag : Type := {
  attrs : gmap str str;
  get_text_strip : str -> str
}.

(** [tag.get(name)]. *)
Definition tag_get (t : Tag) (name : str) : option str := attrs t !! name.

(** [tag.get(name, default)]. *)
Definition tag_get_or (t : Tag) (name default : str) : str :=
  match tag_get t name with Some v => v | None => default end.

(** What the selectors of the script return on a parsed page. *)
Record Soup : Type := {
  (* soup.find of the first [a.icon_list] whose onclick mentions
     Navigation.bill.popup.billProposer *)
  find_proposer_anchor : option Tag;
  (* soup.select of [ul.member_list_img li a] with a members href *)
  select_member_li_links : list Tag;
  (* soup.select of [ul.member_list_img a] with a members href *)
  select_member_links : list Tag;
  (* soup.select of [ul.member_list_img p.jdang] *)
  select_jdang : list Tag;
  (* soup.find of [input#pager_pages_text] *)
  find_pager_pages_text : option Tag;
  (* soup.select of [.paging-navigation a.number] *)
  select_paging_numbers : list Tag;
  (* the [dd] returned by find_next_sibling on the first [dt] whose
     string is the term-count label, when both exist *)
  find_dt_next_dd : option Tag;
  (* soup.select_one of [.jeonzik_left_info .profile_info dl] *)
  select_one_profile_dl : option Tag
}.

(** A response: status, the [from_cache] attribute (false when missing)
    and what [BeautifulSoup(resp.text, "html.parser")] does on its text:
    it returns the parsed page or raises. *)
Record Response : Type := {
  status_code : Z;
  from_cache : bool;
  parsed : result Soup
}.

(** ** The network and the effects of the script *)

(** [SESSION] is created after [requests_cache.install_cache], so it is
    a caching session; [requests_cache.disabled()] only puts back the
    class [requests.Session] for the time of the block and leaves
    [SESSION] as it is.  A request of [SESSION] is therefore answered in
    the same way inside and outside such a block, from the cache when
    the cache has the page. *)
Class Network := {
  Net : Type;
  (* [SESSION.get(url, headers=HEADERS, timeout=timeout)] *)
  session_get : str -> Net -> result Response * Net
}.

(** In [Get url flag] the flag is false when the request is made inside
    a [requests_cache.disabled()] block. *)
Inductive event : Type :=
  | Get (url : str) (use_cache : bool)
  | Sleep (millis : Z)
  | LogCacheTypeError (url : str) (e : exn)
  | LogMemberFail (url : str) (e : exn)
  | LogBillFailed (bill_id : str) (e : exn).


Section Effects.
Context `{Network}.

Record Run (A : Type) : Type := mkRun {
  outcome : result A;
  final : Net;
  trace : list event
}.
Arguments mkRun {A}.
Arguments outcome {A}.
Arguments final {A}.
Arguments trace {A}.

Definition M (A : Type) : Type := Net -> Run A.

Definition ret {A} (a : A) : M A := fun n => mkRun (Ok a) n [].

Definition raise {A} (e : exn) : M A := fun n => mkRun (Raise e) n [].

Definition bind {A B} (m : M A) (k : A -> M B) : M B := fun n =>
  let r := m n in
  match outcome r with
  | Ok a =>
      let r' := k a (final r) in
      mkRun (outcome r') (final r') (trace r ++ trace r')
  | Raise e => mkRun (Raise e) (final r) (trace r)
  end.

(** [try: m except Exception as e: h e]. *)
Definition catch {A} (m : M A) (h : exn -> M A) : M A := fun n =>
  let r := m n in
  match outcome r with
  | Ok a => r
  | Raise e =>
      let r' := h e (final r) in
      mkRun (outcome r') (final r') (trace r ++ trace r')
  end.

Definition lift {A} (r : result A) : M A := fun n => mkRun r n [].

Definition emit (ev : event) : M unit := fun n => mkRun (Ok tt) n [ev].

Definition get (url : str) (use_cache : bool) : M Response := fun n =>
  let (r, n') := session_get url n in
  mkRun r n' [Get url use_cache].

(** [BeautifulSoup(resp.text, "html.parser")]. *)
Definition BeautifulSoup (resp : Response) : M Soup := lift (parsed resp).

End Effects.

Arguments mkRun {_ A}.
Arguments outcome {_ A}.
Arguments final {_ A}.
Arguments trace {_ A}.

#[global] Instance M_ret `{Network} : MRet M := @ret _.
#[global] Instance M_bind `{Network} : MBind M := fun A B k m => bind m k.

(** ** 0) Fetch client *)

Definition RETRY : Z := 3.
Definition SLEEP : Z := 100.           (* 0.10 s *)
Definition FIRST_21_BILL_ID : str := u "PRC_K2E0H0I6U0X1T1J1Y3J9R1K8R0L6P0".

Section Fetch.
Context `{Network}.

Definition raise_for_status (resp : Response) : M unit :=
  if (400 <=? status_code resp) && (status_code resp <? 600)
  then raise (HTTPError (status_code resp))
  else ret tt.

(** The body of the [try] of one attempt. *)
Definition attempt (url : str) (use_cache : bool) : M Response :=
  resp ← get url use_cache;
  raise_for_status resp;;
  (if use_cache && negb (from_cache resp) then emit (Sleep SLEEP) else ret tt);;
  ret resp.

(** The handler of [except TypeError]: one more request, inside a
    [requests_cache.disabled()] block. *)
Definition retry_without_cache (url : str) (e : exn) : M Response :=
  emit (LogCacheTypeError url e);;
  resp ← get url false;
  raise_for_status resp;;
  ret resp.

(** [for attempt in range(attempt_no, attempt_no + remaining)], then
    [raise last_err]. *)
Fixpoint fetch_loop (url : str) (use_cache : bool) (attempt_no : Z)
    (remaining : nat) (last_err : option exn) : M Response :=
  match remaining with
  | O =>
      match last_err with
      | Some e => raise e
      | None => raise RaiseNone
      end
  | S remaining' =>
      catch (attempt url use_cache)
        (fun e =>
           if is_TypeError e then retry_without_cache url e
           else
             emit (Sleep (250 * attempt_no));;
             fetch_loop url use_cache (attempt_no + 1) remaining' (Some e))
  end.

Definition fetch (url : str) (retry : Z) (use_cache : bool) : M Response :=
  fetch_loop url use_cache 1 (Z.to_nat retry) None.

End Fetch.

(** ** 1) Bill detail page: the URL of the proposer popup *)

Section Scraper.
Context `{Unicode} `{Network}.

Definition detail_url (bill_id : str) : str :=
  u "https://likms.assembly.go.kr/bill/bi/billDetailPage.do?billId=" ++ bill_id.

Definition minimal_popup_url (bill_id : str) : str :=
  u "https://likms.assembly.go.kr/bill/bi/popup/billProposer.do?billId=" ++ bill_id.

(** The source also searches [billId:] in the onclick text; that match
    is never used. *)
Definition build_proposer_popup_url_from_detail (bill_id : str) : M str :=
  resp ← fetch (detail_url bill_id) RETRY true;
  soup ← BeautifulSoup resp;
  match find_proposer_anchor soup with
  | Some a =>
      match tag_get a (u "onclick") with
      | Some onclick =>
          let m_no := re_search re_billNo onclick in
          let m_nm := re_search re_billName onclick in
          let bill_no := match m_no with Some g => g | None => [] end in
          let bill_nm := match m_nm with Some g => g | None => [] end in
          let pop_url := minimal_popup_url bill_id in
          let pop_url :=
            if truthy bill_no then pop_url ++ u "&billNo=" ++ bill_no else pop_url in
          let pop_url :=
            if truthy bill_nm then pop_url ++ u "&billName=" ++ bill_nm else pop_url in
          ret pop_url
      | None => ret (minimal_popup_url bill_id)
      end
  | None => ret (minimal_popup_url bill_id)
  end.

(** ** 2) Proposer popup: pages, member links, parties *)

Definition candidates : list str :=
  [u "pageIndex"; u "pageNo"; u "page"; u "currPage"; u "pageNum"].

Definition page_url (base_url p : str) (page : Z) : str :=
  base_url ++ u "&" ++ p ++ u "=" ++ str_of_int page.

Definition has_member_list (s : Soup) : bool :=
  match select_member_li_links s with [] => false | _ => true end.

(** One round of the candidate loop: [Some soup] when the body of the
    [try] returns, [None] when the loop goes on. *)
Definition try_candidate (base_url p : str) (page : Z) : M (option Soup) :=
  catch
    (resp ← fetch (page_url base_url p page) RETRY true;
     soup ← BeautifulSoup resp;
     if has_member_list soup then ret (Some soup) else ret None)
    (fun _ => ret None).

Fixpoint try_candidates (cands : list str) (base_url : str) (page : Z)
    : M (option Soup) :=
  match cands with
  | [] => ret None
  | p :: rest =>
      found ← try_candidate base_url p page;
      match found with
      | Some soup => ret (Some soup)
      | None => try_candidates rest base_url page
      end
  end.

Definition proposer_soup (bill_id base_url : str) (page : Z) : M Soup :=
  found ← try_candidates candidates base_url page;
  match found with
  | Some soup => ret soup
  | None =>
      resp ← fetch base_url RETRY true;
      BeautifulSoup resp
  end.

(** The loop over the page-number links. *)
Fixpoint link_numbers (links : list Tag) (nums : list Z) : result (list Z) :=
  match links with
  | [] => Ok nums
  | a :: rest =>
      match re_search re_fnSearch (tag_get_or a (u "onclick") []) with
      | Some g => rbind (int g) (fun n => link_numbers rest (nums ++ [n]))
      | None => link_numbers rest nums
      end
  end.

(** [max(nums)] for a non-empty list. *)
Definition py_max (first : Z) (others : list Z) : Z := fold_left Z.max others first.

Definition total_from_links (soup : Soup) : result Z :=
  rbind (link_numbers (select_paging_numbers soup) [])
    (fun nums =>
       match nums with
       | [] => Ok 1
       | n :: rest => Ok (py_max n rest)
       end).

Definition parse_total_pages (soup : Soup) : result Z :=
  match find_pager_pages_text soup with
  | Some hidden =>
      match tag_get hidden (u "value") with
      | Some value =>
          match re_search re_pager_total value with
          | Some g => int g
          | None => total_from_links soup
          end
      | None => total_from_links soup
      end
  | None => total_from_links soup
  end.

(** The local function [extract]: it appends to the two lists of the
    enclosing call. *)
Definition extract_links (soup : Soup) (member_links : list str) : list str :=
  fold_left
    (fun links a =>
       match tag_get a (u "href") with
       | Some href => if truthy href then links ++ [href] else links
       | None => links
       end)
    (select_member_links soup) member_links.

Definition extract_parties (soup : Soup) (parties : list str) : list str :=
  fold_left (fun ps p => ps ++ [get_text_strip p []]) (select_jdang soup) parties.

Definition extract (soup : Soup) (lists : list str * list str) : list str * list str :=
  (extract_links soup (fst lists), extract_parties soup (snd lists)).

(** [for p in range(p, p + count)]. *)
Fixpoint later_pages (bill_id base_url : str) (p : Z) (count : nat)
    (lists : list str * list str) : M (list str * list str) :=
  match count with
  | O => ret lists
  | S count' =>
      s ← proposer_soup bill_id base_url p;
      later_pages bill_id base_url (p + 1) count' (extract s lists)
  end.

Definition collect_members_from_popup (bill_id : str)
    : M (list str * list str * nat) :=
  base_url ← build_proposer_popup_url_from_detail bill_id;
  soup1 ← proposer_soup bill_id base_url 1;
  total_pages ← lift (parse_total_pages soup1);
  let lists := extract soup1 ([], []) in
  lists ← later_pages bill_id base_url 2 (Z.to_nat (total_pages + 1 - 2)) lists;
  ret (fst lists, snd lists, length (fst lists)).

(** ** 3) Member page: number of terms *)

Definition KOR_SEN_MAP : list (str * Z) :=
  [ (u "초선", 1); (u "재선", 2); (u "삼선", 3); (u "사선", 4); (u "오선", 5);
    (u "육선", 6); (u "칠선", 7); (u "팔선", 8); (u "구선", 9); (u "십선", 10) ].

(** [for k, v in items: if k in text: seniority = v; break]. *)
Fixpoint first_key_in (items : list (str * Z)) (text : str) : option Z :=
  match items with
  | [] => None
  | (k, v) :: rest => if contains k text then Some v else first_key_in rest text
  end.

(** The text the term count is read from: the old layout first, then
    the new one. *)
Definition seniority_text (soup : Soup) : str :=
  let text := [] in
  let text :=
    match find_dt_next_dd soup with
    | Some dd => get_text_strip dd (u " ")
    | None => text
    end in
  if negb (truthy text) then
    match select_one_profile_dl soup with
    | Some new_dl => get_text_strip new_dl (u " ")
    | None => text
    end
  else text.

(** The term count as the page states it. *)
Definition raw_seniority (text : str) : result (option Z) :=
  match re_search re_seniority text with
  | Some g => rbind (int g) (fun n => Ok (Some n))
  | None => Ok (first_key_in KOR_SEN_MAP text)
  end.

(** [parse_member_seniority] from the point where [text] is known to be
    non-empty. *)
Definition seniority_of_text (text : str) (base_assembly : Z) : result (option Z) :=
  let has_21 := contains (u "제21대") text in
  let has_22 := contains (u "제22대") text in
  rbind (raw_seniority text) (fun seniority =>
  match seniority with
  | None => Ok None
  | Some seniority =>
      let future_terms := 0 in
      let future_terms :=
        if base_assembly <=? 20 then
          let future_terms := if has_21 then future_terms + 1 else future_terms in
          let future_terms := if has_22 then future_terms + 1 else future_terms in
          future_terms
        else if base_assembly =? 21 then
          (if has_22 then future_terms + 1 else future_terms)
        else future_terms in
      let adjusted := seniority - future_terms in
      let adjusted := if adjusted <? 1 then 1 else adjusted in
      Ok (Some adjusted)
  end).

Definition parse_member_seniority (member_url : str) (base_assembly : Z)
    : M (option Z) :=
  catch
    (resp ← fetch member_url RETRY false;
     soup ← BeautifulSoup resp;
     let text := seniority_text soup in
     if negb (truthy text) then ret None
     else lift (seniority_of_text text base_assembly))
    (fun e => emit (LogMemberFail member_url e);; ret None).

End Scraper.

(** ** 4) One bill *)

(** Python floats: [a / b] on two ints and [round(x, ndigits)]; either
    may raise. *)
Class FloatArith := {
  float : Type;
  truediv : Z -> Z -> result float;
  round_ndigits : float -> Z -> result float
}.

(** CPython's floats: IEEE 754 binary64, as [spec_float] of the
    Standard Library with its correctly rounded operations. *)
Module Binary64.

Definition prec : Z := 53.
Definition emax : Z := 1024.

(** An integer of any size, as an exact (not yet rounded) number. *)
Definition of_int (z : Z) : spec_float :=
  match z with
  | Z0 => S754_zero false
  | Zpos p => S754_finite false p 0
  | Zneg p => S754_finite true p 0
  end.

(** The float nearest to [num / den], ties to even; [den > 0]. *)
Definition nearest (num den : Z) : spec_float :=
  SFdiv prec emax (of_int num) (of_int den).

(** [a / b] on two ints: the correctly rounded quotient. *)
Definition truediv (a b : Z) : result spec_float :=
  if b =? 0 then Raise ZeroDivisionError
  else
    match a with
    | Z0 => Ok (S754_zero (b <? 0))
    | _ =>
        match nearest (if b <? 0 then - a else a) (Z.abs b) with
        | S754_infinity _ => Raise OverflowError
        | q => Ok q
        end
    end.

(** The integer nearest to [num / den], ties to even; [0 <= num],
    [0 < den]. *)
Definition round_half_even (num den : Z) : Z :=
  let q := num / den in
  let rest := num mod den in
  match 2 * rest ?= den with
  | Lt => q
  | Gt => q + 1
  | Eq => if Z.even q then q else q + 1
  end.

(** [round(x, ndigits)]: the exact binary value of [x] is rounded to
    [ndigits] decimals, ties to even, and the decimal number obtained is
    converted back to the nearest float. *)
Definition round_ndigits (x : spec_float) (ndigits : Z) : result spec_float :=
  match x with
  | S754_finite s m e =>
      if 323 <? ndigits then Ok x
      else if ndigits <? -308 then Ok (S754_zero s)
      else
        let num := Zpos m * 2 ^ Z.max e 0 * 10 ^ Z.max ndigits 0 in
        let den := 2 ^ Z.max (- e) 0 * 10 ^ Z.max (- ndigits) 0 in
        let n := round_half_even num den in
        match n with
        | Z0 => Ok (S754_zero s)
        | _ =>
            match nearest ((if s then - n else n) * 10 ^ Z.max (- ndigits) 0)
                          (10 ^ Z.max ndigits 0) with
            | S754_infinity _ => Raise OverflowError
            | y => Ok y
            end
        end
  | _ => Ok x
  end.

End Binary64.

Definition binary64 : FloatArith :=
  {| float := spec_float;
     truediv := Binary64.truediv;
     round_ndigits := Binary64.round_ndigits |}.

#[global] Instance str_le_dec (x y : str) : Decision (str_le x y).
Proof. unfold str_le. apply _. Defined.

(** [sorted(set([p for p in parties if p]))]: a set has no order of its
    own, [sorted] fixes one. *)
Definition unique_parties (parties : list str) : list str :=
  merge_sort str_le
    (elements (list_to_set (filter (fun p => truthy p = true) parties) : gset str)).

Definition sum (xs : list Z) : Z := fold_left Z.add xs 0.

Section Bill.
Context `{Unicode} `{Network} `{FloatArith}.

(** One row of the output; a [None] field is a Python [None], [error] is
    [None] when the dict has no such key, otherwise it stands for
    [str(e)]. *)
Record Row : Type := {
  bill_id : str;
  num_proposers : option nat;
  avg_seniority : option float;
  parties : option str;
  error : option exn
}.

(** The worker pool runs the calls concurrently and [as_completed]
    yields them in completion order; here they run in submission order.
    Of the list only the sum and the length are used. *)
Fixpoint gather_seniorities (member_links : list str) (base_assembly : Z)
    (seniorities : list Z) : M (list Z) :=
  match member_links with
  | [] => ret seniorities
  | url :: rest =>
      s ← parse_member_seniority url base_assembly;
      gather_seniorities rest base_assembly
        (match s with
         | Some v => seniorities ++ [v]
         | None => seniorities
         end)
  end.

(** [round(sum(s) / len(s), 2) if s else None]. *)
Definition average (seniorities : list Z) : result (option float) :=
  match seniorities with
  | [] => Ok None
  | _ =>
      rbind (truediv (sum seniorities) (Z.of_nat (length seniorities)))
        (fun mean => rbind (round_ndigits mean 2) (fun avg => Ok (Some avg)))
  end.

Definition success_row (bid : str) (n : nat) (avg : option float)
    (unique : list str) : Row :=
  {| bill_id := bid;
     num_proposers := Some n;
     avg_seniority := avg;
     parties := match unique with [] => None | _ => Some (join (u ", ") unique) end;
     error := None |}.

Definition failure_row (bid : str) (e : exn) : Row :=
  {| bill_id := bid;
     num_proposers := None;
     avg_seniority := None;
     parties := None;
     error := Some e |}.

(** The body of the [try] of [process_one_bill]. *)
Definition process_body (bid : str) (base_assembly : Z) : M Row :=
  collected ← collect_members_from_popup bid;
  let '(member_links, parties, num_proposers) := collected in
  let unique := unique_parties parties in
  seniorities ← gather_seniorities member_links base_assembly [];
  avg ← lift (average seniorities);
  ret (success_row bid num_proposers avg unique).

Definition process_one_bill (bid : str) (base_assembly : Z) : M Row :=
  catch (process_body bid base_assembly)
    (fun e => emit (LogBillFailed bid e);; ret (failure_row bid e)).

(** ** 5) The driver loop of [main] *)

(** [bill_ids.index(x)], [None] for [ValueError]. *)
Fixpoint index (x : str) (bill_ids : list str) : option nat :=
  match bill_ids with
  | [] => None
  | y :: rest =>
      if str_eqb y x then Some O
      else match index x rest with
           | Some i => Some (S i)
           | None => None
           end
  end.

Definition first21_idx (bill_ids : list str) : nat :=
  match index FIRST_21_BILL_ID bill_ids with
  | Some i => i
  | None => length bill_ids
  end.

(** [21 if i >= first21_idx else 20]. *)
Definition base_assembly_at (first21 i : nat) : Z :=
  if (first21 <=? i)%nat then 21 else 20.

(** [for i, bid in enumerate(bill_ids)], from position [i] on. *)
Fixpoint bills_loop (first21 i : nat) (bill_ids : list str) (results : list Row)
    : M (list Row) :=
  match bill_ids with
  | [] => ret results
  | bid :: rest =>
      row ← process_one_bill bid (base_assembly_at first21 i);
      bills_loop first21 (S i) rest (results ++ [row])
  end.

(** [main] from the loaded list of identifiers to the rows handed to the
    CSV writer. *)
Definition main (bill_ids : list str) : M (list Row) :=
  bills_loop (first21_idx bill_ids) 0 bill_ids [].

End Bill.

(** ** Notions of the specification *)

Module Spec.
Section Spec.
Context `{Unicode} `{Network} `{FloatArith}.

(** The total announced by the hidden pager field, when the field is
    present, has a value and the value matches the pager pattern. *)
Definition pager_total (soup : Soup) : option str :=
  match find_pager_pages_text soup with
  | Some hidden =>
      match tag_get hidden (u "value") with
      | Some value => re_search re_pager_total value
      | None => None
      end
  | None => None
  end.

(** The page numbers referenced by navigation links, each as [int]
    reads it. *)
Definition page_references (links : list Tag) : list (result Z) :=
  omap (fun a =>
          match re_search re_fnSearch (tag_get_or a (u "onclick") []) with
          | Some g => Some (int g)
          | None => None
          end) links.

(** Processing the bills of a list one after the other, each with the
    context given for it. *)
Fixpoint process_each (bills : list (str * Z)) (results : list Row) : M (list Row) :=
  match bills with
  | [] => ret results
  | (bid, ctx) :: rest =>
      row ← process_one_bill bid ctx;
      process_each rest (results ++ [row])
  end.

(** A row is either a row of metrics or a row with an error message and
    no metric. *)
Definition row_shape (row : Row) : Prop :=
  error row = None \/
  (num_proposers row = None /\ avg_seniority row = None /\ parties row = None /\
   error row <> None).

(** A query parameter of the popup URL: appended when the pattern
    matched a non-empty value. *)
Definition query_suffix (name : str) (m : option str) : str :=
  match m with
  | Some (c :: g) => name ++ c :: g
  | _ => []
  end.

(** The member links and the party labels of one listing page. *)
Definition member_hrefs (soup : Soup) : list str :=
  omap (fun a => match tag_get a (u "href") with
                 | Some (c :: href) => Some (c :: href)
                 | _ => None
                 end) (select_member_links soup).

Definition party_labels (soup : Soup) : list str :=
  map (fun p => get_text_strip p []) (select_jdang soup).

(** The pages [p, p + 1, ..., p + count - 1]. *)
Definition pages_from (p : Z) (count : nat) : list Z :=
  map (fun i => p + Z.of_nat i) (seq 0 count).

(** One [proposer_soup] call per page, in the order of the list. *)
Fixpoint soups_of_pages (bid base_url : str) (pages : list Z) : M (list Soup) :=
  match pages with
  | [] => ret []
  | p :: rest =>
      s ← proposer_soup bid base_url p;
      soups ← soups_of_pages bid base_url rest;
      ret (s :: soups)
  end.

(** The scraper as a walk over pages: page 1 is obtained once, then
    each page from 2 to the total by a call of its own; the entries of
    all these pages are concatenated in page order. *)
Definition collect_by_pages (bid : str) : M (list str * list str * nat) :=
  base_url ← build_proposer_popup_url_from_detail bid;
  soup1 ← proposer_soup bid base_url 1;
  total_pages ← lift (parse_total_pages soup1);
  soups ← soups_of_pages bid base_url (pages_from 2 (Z.to_nat (total_pages - 1)));
  let links := flat_map member_hrefs (soup1 :: soups) in
  ret (links, flat_map party_labels (soup1 :: soups), length links).

(** The URLs requested, in order. *)
Definition requested (evs : list event) : list str :=
  omap (fun ev => match ev with Get url _ => Some url | _ => None end) evs.

(** The requests of a scraper that fixes the parameter name: the detail
    page, the candidates up to the working one (number [n] of the list)
    on page 1, then pages 2 to the total under that same name. *)
Definition fixed_parameter_requests (bid base_url : str) (total : Z) (n : nat)
    : list str :=
  detail_url bid ::
  map (fun c => page_url base_url c 1) (take (S n) candidates) ++
  map (page_url base_url (nth n candidates [])) (pages_from 2 (Z.to_nat (total - 1))).

(** The network as [k] attempts on [url] in a row leave it. *)
Fixpoint after_attempts (url : str) (use_cache : bool) (k : nat) (net : Net) : Net :=
  match k with
  | O => net
  | S k' => after_attempts url use_cache k' (final (attempt url use_cache net))
  end.

(** An attempt that counts towards the bound: it raises, and what it
    raises is not a [TypeError]. *)
Definition failed_attempt (url : str) (use_cache : bool) (net : Net) : Prop :=
  exists e, outcome (attempt url use_cache net) = Raise e /\ is_TypeError e = false.


(** The events of [n] attempts that all failed, numbered from
    [attempt_no]: each request is followed by its back-off delay. *)
Fixpoint failed_rounds (url : str) (use_cache : bool) (attempt_no : Z) (n : nat)
    : list event :=
  match n with
  | O => []
  | S n' =>
      Get url use_cache :: Sleep (250 * attempt_no)
        :: failed_rounds url use_cache (attempt_no + 1) n'
  end.

(** The time slept in a trace, in milliseconds. *)
Fixpoint slept (evs : list event) : Z :=
  match evs with
  | [] => 0
  | Sleep ms :: rest => ms + slept rest
  | _ :: rest => slept rest
  end.

(** The events a call of [fetch] on [url] may leave: requests to [url],
    made as the flag of the call says or inside a
    [requests_cache.disabled()] block, delays, and the cache warning for
    [url]. *)
Definition fetch_event (url : str) (use_cache : bool) (ev : event) : Prop :=
  match ev with
  | Get u c => u = url /\ (c = use_cache \/ c = false)
  | Sleep _ => True
  | LogCacheTypeError u _ => u = url
  | _ => False
  end.

(** A status for which [raise_for_status] raises. *)
Definition error_status (status : Z) : bool :=
  (400 <=? status) && (status <? 600).

(** Whether a pattern has a capture group. *)
Definition has_group (pat : pattern) : bool :=
  existsb (fun a => match a with Rep _ _ capture => capture | Lit _ => false end) pat.

(** Every group of the pattern is one or more characters of the class
    [cls]. *)
Definition groups_of_class (cls : Z -> bool) (pat : pattern) : Prop :=
  Forall (fun a => match a with
                   | Rep c at_least_one true =>
                       at_least_one = true /\ forall x, c x = true -> cls x = true
                   | _ => True
                   end) pat.

(** [int] accepts a string of this length. *)
Definition within_digit_limit (g : str) : Prop :=
  match max_str_digits with
  | Some limit => (length g <= limit)%nat
  | None => True
  end.


(** A URL that [proposer_soup] may request for a page: the page under
    one of the candidate names, or the bare base URL. *)
Definition probe_url (base_url : str) (page : Z) (url : str) : Prop :=
  url = base_url \/ exists c, c ∈ candidates /\ url = page_url base_url c page.

(** The runs of [process_one_bill] on the bills of a list, one after
    the other from position [i], each on the network the run before it
    left. *)
Fixpoint bill_runs_from (first21 i : nat) (bills : list str) (net : Net)
    : list (Run Row) :=
  match bills with
  | [] => []
  | bid :: rest =>
      let r := process_one_bill bid (base_assembly_at first21 i) net in
      r :: bill_runs_from first21 (S i) rest (final r)
  end.

Definition bill_runs (bill_ids : list str) (net : Net) : list (Run Row) :=
  bill_runs_from (first21_idx bill_ids) 0 bill_ids net.

(** What a candidate name shows for a page: the parsed page, when the
    fetch returns, the parser accepts the text and the page has the
    member list. *)
Definition listing_under (base_url : str) (page : Z) (c : str) (net : Net)
    : option Soup :=
  match outcome (fetch (page_url base_url c page) RETRY true net) with
  | Ok resp =>
      match parsed resp with
      | Ok s => if has_member_list s then Some s else None
      | Raise _ => None
      end
  | Raise _ => None
  end.

(** The network after the pages of the candidates [tried] have been
    fetched in order. *)
Fixpoint after_probes (base_url : str) (page : Z) (tried : list str) (net : Net)
    : Net :=
  match tried with
  | [] => net
  | c :: rest =>
      after_probes base_url page rest
        (final (fetch (page_url base_url c page) RETRY true net))
  end.

(** None of the candidates [tried] shows a listing, each on the network
    its predecessors left. *)
Fixpoint none_shows (base_url : str) (page : Z) (tried : list str) (net : Net)
    : Prop :=
  match tried with
  | [] => True
  | c :: rest =>
      listing_under base_url page c net = None /\
      none_shows base_url page rest
        (final (fetch (page_url base_url c page) RETRY true net))
  end.

(** The events of fetching the pages of the candidates [tried] in
    order. *)
Fixpoint probe_events (base_url : str) (page : Z) (tried : list str) (net : Net)
    : list event :=
  match tried with
  | [] => []
  | c :: rest =>
      trace (fetch (page_url base_url c page) RETRY true net) ++
      probe_events base_url page rest
        (final (fetch (page_url base_url c page) RETRY true net))
  end.







End Spec.

(** The exact mean of a list of integers, rounded to two decimals (ties
    to even), in hundredths; whether it is a tie; and the hundredths
    below it. *)
Definition hundredths_of_mean (vs : list Z) : Z :=
  Binary64.round_half_even (100 * sum vs) (Z.of_nat (length vs)).

Definition hundredths_below_mean (vs : list Z) : Z :=
  (100 * sum vs) / Z.of_nat (length vs).

Definition mean_is_tie (vs : list Z) : bool :=
  2 * ((100 * sum vs) mod Z.of_nat (length vs)) =? Z.of_nat (length vs).

(** The float of the decimal number [k / 100]. *)
Definition two_decimals (k : Z) : spec_float := Binary64.nearest k 100.

Definition float_eqb (x y : spec_float) : bool :=
  match x, y with
  | S754_zero a, S754_zero b => Bool.eqb a b
  | S754_infinity a, S754_infinity b => Bool.eqb a b
  | S754_nan, S754_nan => true
  | S754_finite a m e, S754_finite b m' e' =>
      Bool.eqb a b && Pos.eqb m m' && Z.eqb e e'
  | _, _ => false
  end.

(** [round(s / n, 2)] on binary64. *)
Definition rounded_quotient (s n : Z) : result spec_float :=
  rbind (Binary64.truediv s n) (fun q => Binary64.round_ndigits q 2).

(** Whether [round(s / n, 2)] is the exact quotient rounded to two
    decimals, or one of its two neighbours when the quotient is a tie. *)
Definition rounds_well (s n : Z) : bool :=
  match rounded_quotient s n with
  | Ok a =>
      if 2 * ((100 * s) mod n) =? n
      then float_eqb a (Binary64.nearest ((100 * s) / n) 100) ||
           float_eqb a (Binary64.nearest ((100 * s) / n + 1) 100)
      else float_eqb a (Binary64.nearest (Binary64.round_half_even (100 * s) n) 100)
  | Raise _ => false
  end.

(** All sums from [n] to [10 * n] for every count [n] up to [bound]. *)
Definition rounds_well_upto (bound : nat) : bool :=
  forallb (fun n => forallb (fun i => rounds_well (Z.of_nat n + Z.of_nat i) (Z.of_nat n))
                      (seq 0 (9 * n + 1)))
    (seq 1 bound).

End Spec.

(** [int(b)] for a bool. *)
Definition b2z (b : bool) : Z := if b then 1 else 0.

(** ** Concrete networks and pages, used to run the script *)

Module Sample.

(** A stateless site: every request to a URL has the same outcome. *)
Definition static (site : str -> result Response) : Network :=
  {| Net := unit; session_get := fun url n => (site url, n) |}.

(** A scripted network: the outcomes of the successive requests,
    whatever their URL; a connection error once the script is used up. *)
Definition scripted : Network :=
  {| Net := list (result Response);
     session_get := fun _ n =>
       match n with
       | o :: rest => (o, rest)
       | [] => (Raise (RequestFault false (u "connection refused")), [])
       end |}.

Definition text_tag (text : str) : Tag :=
  {| attrs := ∅; get_text_strip := fun _ => text |}.

Definition attr_tag (name value : str) : Tag :=
  {| attrs := {[ name := value ]}; get_text_strip := fun _ => [] |}.

Definition empty_soup : Soup :=
  {| find_proposer_anchor := None;
     select_member_li_links := [];
     select_member_links := [];
     select_jdang := [];
     find_pager_pages_text := None;
     select_paging_numbers := [];
     find_dt_next_dd := None;
     select_one_profile_dl := None |}.

(** A member page in the old layout with the given term-count text. *)
Definition profile_soup (text : str) : Soup :=
  {| find_proposer_anchor := None;
     select_member_li_links := [];
     select_member_links := [];
     select_jdang := [];
     find_pager_pages_text := None;
     select_paging_numbers := [];
     find_dt_next_dd := Some (text_tag text);
     select_one_profile_dl := None |}.

(** A listing page: member links with their parties and, optionally,
    the value of the hidden pager field. *)
Definition listing_soup (members : list (str * str)) (pager : option str) : Soup :=
  {| find_proposer_anchor := None;
     select_member_li_links := map (fun m => attr_tag (u "href") (fst m)) members;
     select_member_links := map (fun m => attr_tag (u "href") (fst m)) members;
     select_jdang := map (fun m => text_tag (snd m)) members;
     find_pager_pages_text :=
       match pager with
       | Some v => Some (attr_tag (u "value") v)
       | None => None
       end;
     select_paging_numbers := [];
     find_dt_next_dd := None;
     select_one_profile_dl := None |}.

Definition page (s : Soup) : Response :=
  {| status_code := 200; from_cache := false; parsed := Ok s |}.

Definition ok_response (s : Soup) : result Response := Ok (page s).



(** A response whose text the HTML parser refuses. *)
Definition unparsable : Response :=
  {| status_code := 200; from_cache := false;
     parsed := Raise (ParserError (u "unknown declaration")) |}.

Definition timeout : exn := RequestFault false (u "timeout").

Definition member_url : str := u "https://www.assembly.go.kr/members/21st/HONG".

(** A site with one member page, whose term-count text is [text]. *)
Definition profile_site (text : str) : Network :=
  static (fun url =>
    if str_eqb url member_url then ok_response (profile_soup text)
    else Raise timeout).

(** A float arithmetic that keeps the operations as written. *)
Inductive symbolic_float : Type :=
  | Quotient (a b : Z)
  | Rounded (x : symbolic_float) (ndigits : Z).

Definition symbolic : FloatArith :=
  {| float := symbolic_float;
     truediv := fun a b => Ok (Quotient a b);
     round_ndigits := fun x ndigits => Ok (Rounded x ndigits) |}.

(** A site whose pages the parser refuses. *)
Definition garbled : Network := static (fun _ => Ok unparsable).

(** Forty sponsors whose seniorities add up to 107. *)
Definition forty_sponsors : list Z := repeat 3 27 ++ repeat 2 13.

(** A site that is down. *)
Definition down : Network := static (fun _ => Raise timeout).

Definition bill : str := u "PRC_A1B2".

Definition base_url : str := minimal_popup_url bill.

Definition page1 : Soup :=
  listing_soup [(member_url, u "A")] (Some (u " (1/2 페이지)")).

(** A listing of two pages.  The site answers [pageIndex=1] with page 1,
    [pageIndex=2] with a page that has no listing, and requests whose
    parameter it does not know ([pageNo=2]) with page 1. *)
Definition moody_site : Network :=
  static (fun url =>
    if str_eqb url (page_url base_url (u "pageIndex") 1) then ok_response page1
    else if str_eqb url (page_url base_url (u "pageNo") 2) then ok_response page1
    else ok_response empty_soup).

(** Two timeouts, then an answer. *)
Definition third_time_lucky : list (result Response) :=
  [Raise timeout; Raise timeout; ok_response empty_soup].

End Sample.

(** * Properties *)

(** String literals are not unfolded by proof search; they are still
    evaluated by [vm_compute]. *)
#[global] Opaque u.

(** ** Strings and patterns on examples *)

Example u_hangul : u "제21대" = [51228; 50; 49; 45824].
Proof. vm_compute. reflexivity. Qed.

Example search_seniority_ex :
  re_search (@re_seniority ascii_tables) (u "12 x 3 선 4선") = Some (u "3").
Proof. vm_compute. reflexivity. Qed.

Example search_pager_ex :
  re_search (@re_pager_total ascii_tables) (u " (1/2 페이지)") = Some (u "2").
Proof. vm_compute. reflexivity. Qed.

Example search_billNo_ex :
  re_search (@re_billNo ascii_tables) (u "({billId:'A', billNo: '123', billName:''})")
  = Some (u "123").
Proof. vm_compute. reflexivity. Qed.

Example search_billName_ex :
  re_search (@re_billName ascii_tables) (u "({billId:'A', billNo: '123', billName:''})")
  = Some [].
Proof. vm_compute. reflexivity. Qed.

Example str_of_int_ex : str_of_int 305 = u "305" /\ str_of_int 0 = u "0".
Proof. split; vm_compute; reflexivity. Qed.

(** ** Running the effects *)

Section EffectLemmas.
Context `{Network}.

Lemma outcome_bind {A B} (m : M A) (k : A -> M B) net :
  outcome ((m ≫= k) net) =
  match outcome (m net) with
  | Ok a => outcome (k a (final (m net)))
  | Raise e => Raise e
  end.
Proof.
  unfold mbind, M_bind, bind. cbn.
  destruct (outcome (m net)); reflexivity.
Qed.

Lemma final_bind {A B} (m : M A) (k : A -> M B) net :
  final ((m ≫= k) net) =
  match outcome (m net) with
  | Ok a => final (k a (final (m net)))
  | Raise e => final (m net)
  end.
Proof.
  unfold mbind, M_bind, bind. cbn.
  destruct (outcome (m net)); reflexivity.
Qed.

Lemma trace_bind {A B} (m : M A) (k : A -> M B) net :
  trace ((m ≫= k) net) =
  match outcome (m net) with
  | Ok a => trace (m net) ++ trace (k a (final (m net)))
  | Raise e => trace (m net)
  end.
Proof.
  unfold mbind, M_bind, bind. cbn.
  destruct (outcome (m net)); reflexivity.
Qed.

Lemma outcome_catch {A} (m : M A) (h : exn -> M A) net :
  outcome (catch m h net) =
  match outcome (m net) with
  | Ok a => Ok a
  | Raise e => outcome (h e (final (m net)))
  end.
Proof.
  unfold catch. destruct (outcome (m net)) eqn:E; cbn; [exact E | reflexivity].
Qed.

Lemma final_catch {A} (m : M A) (h : exn -> M A) net :
  final (catch m h net) =
  match outcome (m net) with
  | Ok a => final (m net)
  | Raise e => final (h e (final (m net)))
  end.
Proof.
  unfold catch. destruct (outcome (m net)); reflexivity.
Qed.

Lemma trace_catch {A} (m : M A) (h : exn -> M A) net :
  trace (catch m h net) =
  match outcome (m net) with
  | Ok a => trace (m net)
  | Raise e => trace (m net) ++ trace (h e (final (m net)))
  end.
Proof.
  unfold catch. destruct (outcome (m net)); reflexivity.
Qed.

Lemma outcome_BeautifulSoup {B} resp (k : Soup -> M B) net :
  outcome ((BeautifulSoup resp ≫= k) net) =
  match parsed resp with
  | Ok page => outcome (k page net)
  | Raise e => Raise e
  end.
Proof. rewrite outcome_bind. cbn. destruct (parsed resp); reflexivity. Qed.

Lemma final_BeautifulSoup {B} resp (k : Soup -> M B) net :
  final ((BeautifulSoup resp ≫= k) net) =
  match parsed resp with
  | Ok page => final (k page net)
  | Raise e => net
  end.
Proof. rewrite final_bind. cbn. destruct (parsed resp); reflexivity. Qed.

Lemma trace_BeautifulSoup {B} resp (k : Soup -> M B) net :
  trace ((BeautifulSoup resp ≫= k) net) =
  match parsed resp with
  | Ok page => trace (k page net)
  | Raise e => []
  end.
Proof. rewrite trace_bind. cbn. destruct (parsed resp); reflexivity. Qed.

End EffectLemmas.

(** ** Seniority resolver *)

Section Seniority.
Context `{Unicode} `{Network}.

(** The arithmetic of the normalisation, on a page whose raw count is
    known. *)
Lemma seniority_of_text_raw text ctx raw :
  raw_seniority text = Ok (Some raw) ->
  seniority_of_text text ctx =
  Ok (Some (Z.max 1
    (raw - (if ctx <=? 20
            then b2z (contains (u "제21대") text) + b2z (contains (u "제22대") text)
            else if ctx =? 21 then b2z (contains (u "제22대") text)
            else 0)))).
Proof.
  intros Hraw. unfold seniority_of_text. rewrite Hraw. cbn [rbind].
  destruct (ctx <=? 20); [|destruct (ctx =? 21)];
    destruct (contains (u "제21대") text), (contains (u "제22대") text);
    cbn [b2z]; do 2 f_equal;
    match goal with |- context [?a <? 1] => destruct (Z.ltb_spec a 1) end; lia.
Qed.

Lemma seniority_of_text_ge_1 text ctx v :
  seniority_of_text text ctx = Ok (Some v) -> 1 <= v.
Proof.
  unfold seniority_of_text.
  destruct (raw_seniority text) as [[raw|]|e]; cbn [rbind]; try discriminate.
  intros [= <-].
  match goal with |- context [?a <? 1] => destruct (Z.ltb_spec a 1) end; lia.
Qed.

(** What the resolver returns once the page has been fetched. *)
Lemma parse_member_seniority_fetched url ctx net resp :
  outcome (fetch url RETRY false net) = Ok resp ->
  outcome (parse_member_seniority url ctx net) =
  Ok (match parsed resp with
      | Ok page =>
          if negb (truthy (seniority_text page)) then None
          else match seniority_of_text (seniority_text page) ctx with
               | Ok v => v
               | Raise _ => None
               end
      | Raise _ => None
      end).
Proof.
  intros Hf. unfold parse_member_seniority.
  rewrite outcome_catch, outcome_bind, Hf, outcome_BeautifulSoup.
  destruct (parsed resp) as [page|e]; [|rewrite outcome_bind; reflexivity].
  destruct (negb (truthy (seniority_text page))); [reflexivity|].
  cbn [lift outcome].
  destruct (seniority_of_text _ ctx); [reflexivity|].
  rewrite outcome_bind. reflexivity.
Qed.

Lemma parse_member_seniority_total url ctx net :
  exists v, outcome (parse_member_seniority url ctx net) = Ok v.
Proof.
  unfold parse_member_seniority. rewrite outcome_catch.
  destruct (outcome _) as [v|e]; [eauto|].
  rewrite outcome_bind. cbn. eauto.
Qed.

(** C1. Seniority normalisation: on a fetched profile whose text
    yields the raw term count [raw], [parse_member_seniority] returns
    [raw] minus the future session markers found, never less than 1:
    for a context of 20 or less the markers of the 21st and of the 22nd
    session each subtract 1, for context 21 only the marker of the 22nd
    does, from context 22 on nothing is subtracted.  In particular
    (20, raw 3, both markers) gives 1, (21, raw 1, next marker) gives 1
    and (22, raw 2) gives 2. *)
Theorem resolveSeniority_normalizes url ctx net resp page text raw :
  outcome (fetch url RETRY false net) = Ok resp ->
  parsed resp = Ok page ->
  seniority_text page = text ->
  text <> [] ->
  raw_seniority text = Ok (Some raw) ->
  let has_21 := contains (u "제21대") text in
  let has_22 := contains (u "제22대") text in
  let returned := outcome (parse_member_seniority url ctx net) in
  (ctx <= 20 -> returned = Ok (Some (Z.max 1 (raw - (b2z has_21 + b2z has_22))))) /\
  (ctx = 21 -> returned = Ok (Some (Z.max 1 (raw - b2z has_22)))) /\
  (ctx >= 22 -> returned = Ok (Some (Z.max 1 raw))) /\
  (ctx = 20 -> raw = 3 -> has_21 = true -> has_22 = true -> returned = Ok (Some 1)) /\
  (ctx = 21 -> raw = 1 -> has_22 = true -> returned = Ok (Some 1)) /\
  (ctx = 22 -> raw = 2 -> returned = Ok (Some 2)).
Proof.
  intros Hf Hp Ht Hne Hraw has_21 has_22 returned.
  assert (Hret : returned =
    Ok (Some (Z.max 1 (raw - (if ctx <=? 20 then b2z has_21 + b2z has_22
                              else if ctx =? 21 then b2z has_22 else 0))))).
  { subst returned. rewrite (parse_member_seniority_fetched _ _ _ _ Hf), Hp, Ht.
    destruct text; [congruence|]. cbn [truthy negb].
    rewrite (seniority_of_text_raw _ _ _ Hraw). reflexivity. }
  rewrite Hret. clear Hret.
  repeat split; intros.
  - destruct (Z.leb_spec ctx 20); [reflexivity | lia].
  - subst ctx. reflexivity.
  - destruct (Z.leb_spec ctx 20); [lia|].
    destruct (Z.eqb_spec ctx 21); [lia|]. do 2 f_equal. lia.
  - subst. replace has_21 with true. replace has_22 with true. reflexivity.
  - subst. replace has_22 with true. reflexivity.
  - subst. reflexivity.
Qed.

Lemma parse_member_seniority_value url ctx net v :
  outcome (parse_member_seniority url ctx net) = Ok (Some v) -> 1 <= v.
Proof.
  destruct (outcome (fetch url RETRY false net)) as [resp|e] eqn:Hf.
  - rewrite (parse_member_seniority_fetched _ _ _ _ Hf).
    destruct (parsed resp) as [page|e]; [|discriminate].
    destruct (negb (truthy (seniority_text page))); [discriminate|].
    destruct (seniority_of_text _ ctx) as [o|e] eqn:E; [|discriminate].
    intros [= ->]. eapply seniority_of_text_ge_1, E.
  - unfold parse_member_seniority. rewrite outcome_catch, outcome_bind, Hf.
    rewrite outcome_bind. discriminate.
Qed.

(** C2. Whenever [parse_member_seniority] returns a value that is not
    [None], the value is at least 1, whatever the URL, the context, the
    raw count and the number of markers subtracted; and the call never
    raises. *)
Theorem seniority_value_at_least_1 url ctx net :
  (exists o, outcome (parse_member_seniority url ctx net) = Ok o) /\
  (forall v, outcome (parse_member_seniority url ctx net) = Ok (Some v) -> 1 <= v).
Proof.
  split; [apply parse_member_seniority_total|].
  intros v. apply parse_member_seniority_value.
Qed.

End Seniority.

Lemma resolveSeniority_normalizes_witness :
  let N := Sample.profile_site (u "3선 (제20대, 제21대, 제22대)") in
  @outcome N _ (@parse_member_seniority ascii_tables N Sample.member_url 20 tt)
  = Ok (Some 1).
Proof.
  intros N.
  refine (proj1 (proj2 (proj2 (proj2
    (@resolveSeniority_normalizes ascii_tables N Sample.member_url 20 tt
       (Sample.page (Sample.profile_soup (u "3선 (제20대, 제21대, 제22대)")))
       (Sample.profile_soup (u "3선 (제20대, 제21대, 제22대)"))
       (u "3선 (제20대, 제21대, 제22대)") 3 _ _ _ _ _)))) _ _ _ _);
    try (vm_compute; reflexivity); try reflexivity.
  vm_compute. discriminate.
Defined.

Lemma seniority_value_at_least_1_witness :
  let N := Sample.profile_site (u "초선 (제22대)") in
  @outcome N _ (@parse_member_seniority ascii_tables N Sample.member_url 21 tt)
  = Ok (Some 1) /\ 1 <= 1.
Proof.
  intros N.
  assert (E : @outcome N _ (@parse_member_seniority ascii_tables N Sample.member_url 21 tt)
              = Ok (Some 1)) by (vm_compute; reflexivity).
  split; [exact E|].
  exact (proj2 (@seniority_value_at_least_1 ascii_tables N Sample.member_url 21 tt) 1 E).
Defined.

(** ** Party set *)

Section StringOrder.

Lemma str_ltb_irrefl x : str_ltb x x = false.
Proof.
  induction x as [|a x IH]; cbn; [reflexivity|].
  rewrite Z.ltb_irrefl, Z.eqb_refl, IH. reflexivity.
Qed.

Lemma str_ltb_cons a x b y :
  str_ltb (a :: x) (b :: y) = true <-> a < b \/ (a = b /\ str_ltb x y = true).
Proof.
  cbn. rewrite orb_true_iff, andb_true_iff, Z.ltb_lt, Z.eqb_eq. reflexivity.
Qed.

Lemma str_ltb_trans x y z :
  str_ltb x y = true -> str_ltb y z = true -> str_ltb x z = true.
Proof.
  revert y z. induction x as [|a x IH]; intros [|b y] [|c z]; try discriminate;
    try reflexivity.
  rewrite !str_ltb_cons. intros [Hab|[-> Hxy]] [Hbc|[-> Hyz]]; try (left; lia).
  right. split; [reflexivity|]. eapply IH; eassumption.
Qed.

Lemma str_ltb_trichotomy x y :
  str_ltb x y = true \/ x = y \/ str_ltb y x = true.
Proof.
  revert y. induction x as [|a x IH]; intros [|b y];
    [right; left; reflexivity | left; reflexivity | right; right; reflexivity |].
  rewrite !str_ltb_cons.
  destruct (Z.lt_trichotomy a b) as [Hlt|[->|Hgt]]; auto.
  destruct (IH y) as [Hl|[->|Hg]]; auto.
Qed.

Lemma str_le_alt x y : str_le x y <-> str_ltb x y = true \/ x = y.
Proof.
  unfold str_le. split.
  - intros Hyx. destruct (str_ltb_trichotomy x y) as [Hl|[->|Hg]]; auto. congruence.
  - intros [Hl| ->]; [|apply str_ltb_irrefl].
    destruct (str_ltb y x) eqn:E; [|reflexivity].
    pose proof (str_ltb_trans _ _ _ Hl E) as Hxx.
    rewrite str_ltb_irrefl in Hxx. discriminate.
Qed.

#[global] Instance str_le_total : Total str_le.
Proof.
  intros x y. rewrite !str_le_alt.
  destruct (str_ltb_trichotomy x y) as [Hl|[->|Hg]]; auto.
Qed.

#[global] Instance str_le_trans : Transitive str_le.
Proof.
  intros x y z. rewrite !str_le_alt.
  intros [Hxy| ->] [Hyz| ->]; auto.
  left. eapply str_ltb_trans; eassumption.
Qed.

#[global] Instance str_le_antisymm : AntiSymm (=) str_le.
Proof.
  intros x y Hxy. rewrite str_le_alt in Hxy. unfold str_le.
  destruct Hxy as [Hl| ->]; [congruence | reflexivity].
Qed.

End StringOrder.

Section Parties.

(** [sorted] yields the same list whatever order the set is iterated in. *)
Lemma sorted_of_any_order (order1 order2 : list str) :
  order1 ≡ₚ order2 -> merge_sort str_le order1 = merge_sort str_le order2.
Proof.
  intros Hp. apply (Sorted_unique str_le).
  - apply Sorted_merge_sort; apply _.
  - apply Sorted_merge_sort; apply _.
  - rewrite !merge_sort_Permutation. exact Hp.
Qed.

Lemma elem_of_unique_parties labels x :
  x ∈ unique_parties labels <-> x ∈ labels /\ x <> [].
Proof.
  unfold unique_parties. rewrite merge_sort_Permutation.
  rewrite elem_of_elements, elem_of_list_to_set, list_elem_of_filter.
  destruct x; cbn; split; intros [? ?]; split; auto; congruence.
Qed.

(** C5. The party set of [process_one_bill] is the sorted list of the
    distinct non-empty labels: it is sorted, has no duplicates, holds
    exactly the non-empty labels observed, and therefore depends neither
    on the order nor on the multiplicity of the labels, nor on the order
    in which the intermediate set is iterated.  The labels A, B, A in
    any order give [A, B], and empty labels are left out. *)
Theorem party_set_sorted_distinct (labels : list str) :
  Sorted str_le (unique_parties labels) /\
  NoDup (unique_parties labels) /\
  (forall x, x ∈ unique_parties labels <-> x ∈ labels /\ x <> []) /\
  (forall labels' : list str,
     (forall x, x ∈ labels <-> x ∈ labels') ->
     unique_parties labels' = unique_parties labels) /\
  (forall order : list str,
     order ≡ₚ elements (list_to_set (filter (fun p => truthy p = true) labels) : gset str) ->
     merge_sort str_le order = unique_parties labels) /\
  unique_parties [u "A"; u "B"; u "A"] = [u "A"; u "B"] /\
  unique_parties [u "B"; u "A"; u "A"] = [u "A"; u "B"] /\
  unique_parties [u "A"; u "A"; u "B"] = [u "A"; u "B"] /\
  unique_parties [u "B"; []; u "A"; []] = [u "A"; u "B"].
Proof.
  split; [apply Sorted_merge_sort; apply _|].
  split.
  { unfold unique_parties. rewrite merge_sort_Permutation. apply NoDup_elements. }
  split; [apply elem_of_unique_parties|].
  split.
  { intros labels' Hsame. apply (Sorted_unique str_le).
    - apply Sorted_merge_sort; apply _.
    - apply Sorted_merge_sort; apply _.
    - apply NoDup_Permutation.
      + unfold unique_parties. rewrite merge_sort_Permutation. apply NoDup_elements.
      + unfold unique_parties. rewrite merge_sort_Permutation. apply NoDup_elements.
      + intros x. rewrite !elem_of_unique_parties, Hsame. reflexivity. }
  split; [intros order Hp; apply sorted_of_any_order, Hp|].
  repeat split; vm_compute; reflexivity.
Qed.

Lemma party_set_sorted_distinct_witness :
  unique_parties [u "B"; u "A"] = unique_parties [u "A"; u "B"; u "A"].
Proof.
  refine (proj1 (proj2 (proj2 (proj2
    (party_set_sorted_distinct [u "A"; u "B"; u "A"])))) [u "B"; u "A"] _).
  intros x. rewrite !elem_of_cons, !elem_of_nil. tauto.
Defined.

End Parties.

(** ** Total page count *)

Section TotalPages.
Context `{Unicode}.

Lemma link_numbers_acc links acc :
  link_numbers links acc =
  rbind (link_numbers links []) (fun nums => Ok (acc ++ nums)).
Proof.
  revert acc. induction links as [|a links IH]; intros acc; cbn [link_numbers].
  - cbn. rewrite app_nil_r. reflexivity.
  - destruct (re_search re_fnSearch _) as [g|]; [|apply IH].
    destruct (int g) as [n|e]; cbn [rbind]; [|reflexivity].
    rewrite (IH (acc ++ [n])), (IH ([] ++ [n])).
    destruct (link_numbers links []) as [nums|e]; cbn [rbind]; [|reflexivity].
    rewrite <- app_assoc. reflexivity.
Qed.

Lemma page_references_cons a links :
  Spec.page_references (a :: links) =
  match re_search re_fnSearch (tag_get_or a (u "onclick") []) with
  | Some g => int g :: Spec.page_references links
  | None => Spec.page_references links
  end.
Proof.
  unfold Spec.page_references. cbn [omap list_omap].
  destruct (re_search re_fnSearch _); reflexivity.
Qed.

Lemma link_numbers_references links nums :
  Forall2 (fun r n => r = Ok n) (Spec.page_references links) nums ->
  link_numbers links [] = Ok nums.
Proof.
  revert nums. induction links as [|a links IH]; intros nums.
  - intros Hf. inversion Hf. reflexivity.
  - rewrite page_references_cons. cbn [link_numbers].
    destruct (re_search re_fnSearch _) as [g|]; [|apply IH].
    intros Hf. inversion Hf as [|r n rs ns Hr Hrest]; subst.
    rewrite Hr. cbn [rbind]. rewrite link_numbers_acc, (IH _ Hrest). reflexivity.
Qed.

Lemma py_max_upper first others :
  first <= py_max first others /\ forall m, m ∈ others -> m <= py_max first others.
Proof.
  unfold py_max. revert first.
  induction others as [|x others IH]; intros first; cbn [fold_left].
  - split; [lia|]. intros m Hm. inversion Hm.
  - destruct (IH (Z.max first x)) as [H1 H2]. split; [lia|].
    intros m Hm. apply elem_of_cons in Hm as [->|Hm]; [lia|auto].
Qed.

Lemma py_max_elem first others : py_max first others ∈ first :: others.
Proof.
  unfold py_max. revert first.
  induction others as [|x others IH]; intros first; cbn [fold_left].
  - apply elem_of_cons. left. reflexivity.
  - specialize (IH (Z.max first x)). rewrite !elem_of_cons in *.
    destruct IH as [Heq|Hin]; [|auto].
    rewrite Heq. destruct (Z.max_spec first x) as [[_ ->]|[_ ->]]; auto.
Qed.

(** C8. The total page count is the value of the hidden pager field
    when the field matches the pager pattern; otherwise it is the
    largest page number referenced by the navigation links; and it is 1
    when there is neither a hidden field nor a navigation link (more
    generally, when no link references a page). *)
Theorem total_pages_derivation (soup : Soup) :
  (forall g, Spec.pager_total soup = Some g -> parse_total_pages soup = int g) /\
  (Spec.pager_total soup = None ->
   forall nums,
     Forall2 (fun r n => r = Ok n)
       (Spec.page_references (select_paging_numbers soup)) nums ->
     (nums = [] -> parse_total_pages soup = Ok 1) /\
     (nums <> [] ->
      exists n, parse_total_pages soup = Ok n /\ n ∈ nums /\
                forall m, m ∈ nums -> m <= n)) /\
  (find_pager_pages_text soup = None ->
   select_paging_numbers soup = [] ->
   parse_total_pages soup = Ok 1).
Proof.
  assert (Hlinks : Spec.pager_total soup = None ->
                   parse_total_pages soup = total_from_links soup).
  { unfold Spec.pager_total, parse_total_pages.
    destruct (find_pager_pages_text soup) as [hidden|]; [|reflexivity].
    destruct (tag_get hidden (u "value")) as [value|]; [|reflexivity].
    intros ->. reflexivity. }
  split; [|split].
  - unfold Spec.pager_total, parse_total_pages. intros g.
    destruct (find_pager_pages_text soup) as [hidden|]; [|discriminate].
    destruct (tag_get hidden (u "value")) as [value|]; [|discriminate].
    intros ->. reflexivity.
  - intros Hnone nums Hrefs. rewrite (Hlinks Hnone). unfold total_from_links.
    rewrite (link_numbers_references _ _ Hrefs). cbn [rbind].
    split.
    + intros ->. reflexivity.
    + intros Hne. destruct nums as [|n rest]; [congruence|].
      exists (py_max n rest). split; [reflexivity|]. split; [apply py_max_elem|].
      intros m Hm. destruct (py_max_upper n rest) as [H1 H2].
      apply elem_of_cons in Hm as [->|Hm]; auto.
  - intros Hhid Hnav. rewrite Hlinks.
    + unfold total_from_links. rewrite Hnav. reflexivity.
    + unfold Spec.pager_total. rewrite Hhid. reflexivity.
Qed.

End TotalPages.

Lemma total_pages_derivation_witness :
  @parse_total_pages ascii_tables
    (Sample.listing_soup [] (Some (u " (1/2 페이지)"))) = Ok 2 /\
  @parse_total_pages ascii_tables Sample.empty_soup = Ok 1.
Proof.
  split.
  - refine (eq_trans (proj1 (@total_pages_derivation ascii_tables
      (Sample.listing_soup [] (Some (u " (1/2 페이지)")))) (u "2") _) _);
      vm_compute; reflexivity.
  - refine (proj2 (proj2 (@total_pages_derivation ascii_tables Sample.empty_soup)) _ _);
      reflexivity.
Defined.

(** ** Driver: contexts and rows *)

Section Driver.
Context `{Unicode} `{Network} `{FloatArith}.

Lemma index_spec x (ids : list str) :
  match index x ids with
  | Some k => ids !! k = Some x /\ forall j, (j < k)%nat -> ids !! j <> Some x
  | None => x ∉ ids
  end.
Proof.
  induction ids as [|y ids IH]; cbn [index].
  - apply not_elem_of_nil.
  - unfold str_eqb. case_bool_decide as Hy.
    + subst y. split; [reflexivity|]. intros j Hj. lia.
    + destruct (index x ids) as [k|].
      * destruct IH as [Hk Hfirst]. split; [exact Hk|].
        intros [|j] Hj; cbn; [congruence|]. apply Hfirst. lia.
      * rewrite elem_of_cons. intros [->|Hin]; [congruence|contradiction].
Qed.

Lemma first21_idx_first (ids : list str) k :
  ids !! k = Some FIRST_21_BILL_ID ->
  (forall j, (j < k)%nat -> ids !! j <> Some FIRST_21_BILL_ID) ->
  first21_idx ids = k.
Proof.
  intros Hk Hfirst. unfold first21_idx.
  pose proof (index_spec FIRST_21_BILL_ID ids) as Hspec.
  destruct (index FIRST_21_BILL_ID ids) as [k'|].
  - destruct Hspec as [Hk' Hfirst'].
    destruct (lt_eq_lt_dec k k') as [[Hlt|Heq]|Hgt]; [|exact (eq_sym Heq)|].
    + exfalso. exact (Hfirst' k Hlt Hk).
    + exfalso. exact (Hfirst k' Hgt Hk').
  - exfalso. apply Hspec. eapply list_elem_of_lookup_2, Hk.
Qed.

Lemma first21_idx_missing (ids : list str) :
  FIRST_21_BILL_ID ∉ ids -> first21_idx ids = length ids.
Proof.
  intros Hnot. unfold first21_idx.
  pose proof (index_spec FIRST_21_BILL_ID ids) as Hspec.
  destruct (index FIRST_21_BILL_ID ids) as [k|]; [|reflexivity].
  exfalso. apply Hnot. eapply list_elem_of_lookup_2, Hspec.
Qed.

Lemma bills_loop_process_each first21 i ids results net :
  bills_loop first21 i ids results net =
  Spec.process_each
    (imap (fun j bid => (bid, base_assembly_at first21 (i + j))) ids) results net.
Proof.
  revert i results net. induction ids as [|bid ids IH]; intros i results net.
  - reflexivity.
  - cbn [bills_loop imap Spec.process_each]. rewrite Nat.add_0_r.
    unfold mbind, M_bind, bind.
    destruct (outcome (process_one_bill bid (base_assembly_at first21 i) net));
      [|reflexivity].
    rewrite IH.
    assert (E : imap (fun j b => (b, base_assembly_at first21 (S i + j))) ids =
                imap ((fun j b => (b, base_assembly_at first21 (i + j))) ∘ S) ids).
    { apply imap_ext. intros j x _. cbn. do 2 f_equal. lia. }
    rewrite E. reflexivity.
Qed.

(** C6. The driver assigns the context by position: every identifier
    strictly before the first occurrence of [FIRST_21_BILL_ID] is
    processed with context 20, every identifier at or after it with
    context 21, and all of them with context 20 when the cutover
    identifier is not in the list. *)
Theorem assembly_context_by_position (bill_ids : list str) :
  (forall k,
     bill_ids !! k = Some FIRST_21_BILL_ID ->
     (forall j, (j < k)%nat -> bill_ids !! j <> Some FIRST_21_BILL_ID) ->
     forall i,
       ((i < k)%nat -> base_assembly_at (first21_idx bill_ids) i = 20) /\
       ((k <= i)%nat -> base_assembly_at (first21_idx bill_ids) i = 21)) /\
  (FIRST_21_BILL_ID ∉ bill_ids ->
   forall i, (i < length bill_ids)%nat ->
             base_assembly_at (first21_idx bill_ids) i = 20) /\
  (forall net,
     main bill_ids net =
     Spec.process_each
       (imap (fun i bid => (bid, base_assembly_at (first21_idx bill_ids) i)) bill_ids)
       [] net).
Proof.
  split; [|split].
  - intros k Hk Hfirst i. rewrite (first21_idx_first _ _ Hk Hfirst).
    unfold base_assembly_at.
    split; intros Hi; destruct (Nat.leb_spec k i); (reflexivity || lia).
  - intros Hnot i Hi. rewrite (first21_idx_missing _ Hnot).
    unfold base_assembly_at. destruct (Nat.leb_spec (length bill_ids) i);
      (reflexivity || lia).
  - intros net. unfold main. rewrite bills_loop_process_each. reflexivity.
Qed.

Lemma process_body_row bid ctx net row :
  outcome (process_body bid ctx net) = Ok row ->
  bill_id row = bid /\ error row = None.
Proof.
  unfold process_body. rewrite outcome_bind.
  destruct (outcome (collect_members_from_popup bid net)) as [[[links ps] n]|];
    [|discriminate].
  rewrite outcome_bind.
  destruct (outcome (gather_seniorities links ctx [] _)) as [vs|]; [|discriminate].
  rewrite outcome_bind. cbn [lift outcome final].
  destruct (average vs); [|discriminate].
  intros [= <-]. split; reflexivity.
Qed.

Lemma process_one_bill_outcome bid ctx net :
  outcome (process_one_bill bid ctx net) =
  Ok (match outcome (process_body bid ctx net) with
      | Ok row => row
      | Raise e => failure_row bid e
      end).
Proof.
  unfold process_one_bill. rewrite outcome_catch.
  destruct (outcome (process_body bid ctx net)); [reflexivity|].
  rewrite outcome_bind. reflexivity.
Qed.

Lemma process_one_bill_row bid ctx net :
  exists row, outcome (process_one_bill bid ctx net) = Ok row /\
              bill_id row = bid /\ Spec.row_shape row.
Proof.
  rewrite process_one_bill_outcome.
  destruct (outcome (process_body bid ctx net)) as [row|e] eqn:E.
  - exists row. destruct (process_body_row _ _ _ _ E) as [Hid Herr].
    split; [reflexivity|]. split; [exact Hid|]. left. exact Herr.
  - exists (failure_row bid e). split; [reflexivity|]. split; [reflexivity|].
    right. cbn. repeat split; discriminate.
Qed.

Lemma bills_loop_rows first21 i ids results net :
  exists rows,
    outcome (bills_loop first21 i ids results net) = Ok (results ++ rows) /\
    map bill_id rows = ids /\ Forall Spec.row_shape rows /\
    map outcome (Spec.bill_runs_from first21 i ids net) = map Ok rows /\
    trace (bills_loop first21 i ids results net) =
    concat (map trace (Spec.bill_runs_from first21 i ids net)).
Proof.
  revert i results net. induction ids as [|bid ids IH]; intros i results net.
  - exists []. cbn. rewrite app_nil_r. auto.
  - cbn [bills_loop Spec.bill_runs_from]. rewrite outcome_bind, trace_bind.
    destruct (process_one_bill_row bid (base_assembly_at first21 i) net)
      as (row & Hrow & Hid & Hshape).
    rewrite Hrow.
    destruct (IH (S i) (results ++ [row])
                 (final (process_one_bill bid (base_assembly_at first21 i) net)))
      as (rows & -> & Hids & Hshapes & Hruns & ->).
    exists (row :: rows). rewrite <- app_assoc. cbn [app map concat].
    split; [reflexivity|]. split; [congruence|].
    split; [constructor; assumption|].
    split; [|reflexivity]. rewrite Hrow, Hruns. reflexivity.
Qed.

(** C3. The driver produces exactly one row per input identifier, in
    input order.  An exception raised while a bill is processed is
    caught in [process_one_bill], which then returns a row without
    metrics and with the error.  The loop goes on with the next bill:
    [process_one_bill] is run once for every identifier of the list, a
    failed one included, each run on the network the run before it left
    and with the context of its position; the rows of [main] are the
    rows these runs returned, in order, and [main] does nothing but
    these runs. *)
Theorem one_row_per_bill (bill_ids : list str) net :
  (forall bid ctx n,
     outcome (process_one_bill bid ctx n) =
     Ok (match outcome (process_body bid ctx n) with
         | Ok row => row
         | Raise e => failure_row bid e
         end)) /\
  exists rows,
    outcome (main bill_ids net) = Ok rows /\
    length rows = length bill_ids /\
    map bill_id rows = bill_ids /\
    Forall Spec.row_shape rows /\
    length (Spec.bill_runs bill_ids net) = length bill_ids /\
    map outcome (Spec.bill_runs bill_ids net) = map Ok rows /\
    trace (main bill_ids net) = concat (map trace (Spec.bill_runs bill_ids net)).
Proof.
  split; [apply process_one_bill_outcome|].
  destruct (bills_loop_rows (first21_idx bill_ids) 0 bill_ids [] net)
    as (rows & Hrun & Hids & Hshapes & Hruns & Htrace).
  exists rows. split; [exact Hrun|].
  assert (Hlen : length rows = length bill_ids).
  { apply (f_equal length) in Hids. rewrite length_map in Hids. exact Hids. }
  split; [exact Hlen|]. split; [exact Hids|]. split; [exact Hshapes|].
  split; [|split; [exact Hruns | exact Htrace]].
  apply (f_equal length) in Hruns. rewrite !length_map in Hruns.
  unfold Spec.bill_runs. congruence.
Qed.

End Driver.

(** ** Popup locator *)

Section Locator.
Context `{Unicode} `{Network} `{FloatArith}.

Lemma startswith_app (p s : str) : startswith p (p ++ s) = true.
Proof.
  induction p as [|a p IH]; cbn; [reflexivity|].
  rewrite Z.eqb_refl, IH. reflexivity.
Qed.

Lemma build_url_fetched bid net resp page :
  outcome (fetch (detail_url bid) RETRY true net) = Ok resp ->
  parsed resp = Ok page ->
  outcome (build_proposer_popup_url_from_detail bid net) =
  Ok (match find_proposer_anchor page with
      | Some a =>
          match tag_get a (u "onclick") with
          | Some onclick =>
              minimal_popup_url bid ++
              Spec.query_suffix (u "&billNo=") (re_search re_billNo onclick) ++
              Spec.query_suffix (u "&billName=") (re_search re_billName onclick)
          | None => minimal_popup_url bid
          end
      | None => minimal_popup_url bid
      end).
Proof.
  intros Hf Hp. unfold build_proposer_popup_url_from_detail.
  rewrite outcome_bind, Hf, outcome_BeautifulSoup, Hp.
  destruct (find_proposer_anchor page) as [a|]; [|reflexivity].
  destruct (tag_get a (u "onclick")) as [onclick|]; [|reflexivity].
  destruct (re_search re_billNo onclick) as [[|c no]|],
           (re_search re_billName onclick) as [[|d nm]|];
    cbn [truthy Spec.query_suffix outcome ret mret M_ret];
    rewrite ?app_nil_r, <- ?app_assoc; reflexivity.
Qed.

Lemma build_url_raises bid net e :
  (outcome (fetch (detail_url bid) RETRY true net) = Raise e \/
   exists resp, outcome (fetch (detail_url bid) RETRY true net) = Ok resp /\
                parsed resp = Raise e) ->
  outcome (build_proposer_popup_url_from_detail bid net) = Raise e.
Proof.
  unfold build_proposer_popup_url_from_detail. rewrite outcome_bind.
  intros [Hf|(resp & Hf & Hp)]; rewrite Hf; [reflexivity|].
  rewrite outcome_BeautifulSoup, Hp. reflexivity.
Qed.

Lemma locator_fault_fails_bill bid ctx net e :
  outcome (build_proposer_popup_url_from_detail bid net) = Raise e ->
  outcome (process_one_bill bid ctx net) = Ok (failure_row bid e).
Proof.
  intros Hb. rewrite process_one_bill_outcome.
  unfold process_body, collect_members_from_popup.
  rewrite !outcome_bind, Hb. reflexivity.
Qed.

(** C9, as the code has it.  The locator requests the detail page and
    parses it.  A fault of the fetch and a fault of the parser are both
    raised to the caller, and [process_one_bill] then returns the row
    with that error.  Once the page has been fetched and parsed, the
    locator returns a URL that starts with the minimal URL of the bill
    id, followed by the bill number and the bill name found in the
    script call; it is the minimal URL itself when the call, its
    onclick text or both parameters are absent. *)
Theorem popup_url_after_fetch bid net :
  (forall e,
     outcome (fetch (detail_url bid) RETRY true net) = Raise e ->
     outcome (build_proposer_popup_url_from_detail bid net) = Raise e /\
     forall ctx, outcome (process_one_bill bid ctx net) = Ok (failure_row bid e)) /\
  (forall resp e,
     outcome (fetch (detail_url bid) RETRY true net) = Ok resp ->
     parsed resp = Raise e ->
     outcome (build_proposer_popup_url_from_detail bid net) = Raise e /\
     forall ctx, outcome (process_one_bill bid ctx net) = Ok (failure_row bid e)) /\
  (forall resp page,
     outcome (fetch (detail_url bid) RETRY true net) = Ok resp ->
     parsed resp = Ok page ->
     exists url,
       outcome (build_proposer_popup_url_from_detail bid net) = Ok url /\
       startswith (minimal_popup_url bid) url = true /\
       (find_proposer_anchor page = None -> url = minimal_popup_url bid) /\
       (forall a,
          find_proposer_anchor page = Some a ->
          (tag_get a (u "onclick") = None -> url = minimal_popup_url bid) /\
          (forall onclick,
             tag_get a (u "onclick") = Some onclick ->
             url = minimal_popup_url bid ++
                   Spec.query_suffix (u "&billNo=") (re_search re_billNo onclick) ++
                   Spec.query_suffix (u "&billName=") (re_search re_billName onclick) /\
             (re_search re_billNo onclick = None ->
              re_search re_billName onclick = None ->
              url = minimal_popup_url bid)))).
Proof.
  split; [|split].
  - intros e Hf.
    assert (Hb : outcome (build_proposer_popup_url_from_detail bid net) = Raise e)
      by (apply build_url_raises; left; exact Hf).
    split; [exact Hb|]. intros ctx. apply locator_fault_fails_bill, Hb.
  - intros resp e Hf Hp.
    assert (Hb : outcome (build_proposer_popup_url_from_detail bid net) = Raise e)
      by (apply build_url_raises; right; eauto).
    split; [exact Hb|]. intros ctx. apply locator_fault_fails_bill, Hb.
  - intros resp page Hf Hp. rewrite (build_url_fetched _ _ _ _ Hf Hp).
    eexists. split; [reflexivity|].
    destruct (find_proposer_anchor page) as [a|].
    + destruct (tag_get a (u "onclick")) as [onclick|] eqn:Eo.
      * split; [apply startswith_app|]. split; [discriminate|].
        intros a' [= <-]. rewrite Eo. split; [discriminate|].
        intros onclick' [= <-]. split; [reflexivity|].
        intros -> ->. cbn. rewrite app_nil_r. reflexivity.
      * split; [rewrite <- (app_nil_r (minimal_popup_url bid)) at 2;
                apply startswith_app|].
        split; [discriminate|].
        intros a' [= <-]. rewrite Eo. split; [reflexivity|]. discriminate.
    + split; [rewrite <- (app_nil_r (minimal_popup_url bid)) at 2;
              apply startswith_app|].
      split; [reflexivity|]. discriminate.
Qed.

End Locator.

(** C9, as stated, fails: when the site is down the locator raises the
    fault of the last attempt and produces no URL; when the parser
    refuses the detail page the locator raises the fault of the parser
    and produces no URL either. *)
Lemma popup_locator_can_fail :
  (@outcome Sample.down _
     (@build_proposer_popup_url_from_detail ascii_tables Sample.down Sample.bill tt)
   = Raise Sample.timeout /\
   ~ exists url,
       @outcome Sample.down _
         (@build_proposer_popup_url_from_detail ascii_tables Sample.down Sample.bill tt)
       = Ok url) /\
  (@outcome Sample.garbled _
     (@build_proposer_popup_url_from_detail ascii_tables Sample.garbled Sample.bill tt)
   = Raise (ParserError (u "unknown declaration")) /\
   ~ exists url,
       @outcome Sample.garbled _
         (@build_proposer_popup_url_from_detail ascii_tables Sample.garbled Sample.bill tt)
       = Ok url).
Proof.
  assert (E : @outcome Sample.down _
    (@build_proposer_popup_url_from_detail ascii_tables Sample.down Sample.bill tt)
    = Raise Sample.timeout) by (vm_compute; reflexivity).
  assert (G : @outcome Sample.garbled _
    (@build_proposer_popup_url_from_detail ascii_tables Sample.garbled Sample.bill tt)
    = Raise (ParserError (u "unknown declaration"))) by (vm_compute; reflexivity).
  split; (split; [assumption|]); intros [url Hurl].
  - rewrite E in Hurl. discriminate.
  - rewrite G in Hurl. discriminate.
Qed.

Lemma popup_url_after_fetch_witness :
  exists url,
    @outcome Sample.moody_site _
      (@build_proposer_popup_url_from_detail ascii_tables Sample.moody_site Sample.bill tt)
    = Ok url /\ url = Sample.base_url.
Proof.
  destruct (proj2 (proj2 (@popup_url_after_fetch ascii_tables Sample.moody_site
                            Sample.symbolic Sample.bill tt))
              (Sample.page Sample.empty_soup) Sample.empty_soup)
    as (url & Hout & _ & Hmin & _).
  - vm_compute. reflexivity.
  - reflexivity.
  - exists url. split; [exact Hout|]. apply Hmin. reflexivity.
Defined.

(** ** Paginated scraper *)

Section MonadLaws.
Context `{Network}.

Lemma run_ext {A} (r1 r2 : Run A) :
  outcome r1 = outcome r2 -> final r1 = final r2 -> trace r1 = trace r2 -> r1 = r2.
Proof. destruct r1, r2; cbn; congruence. Qed.

Lemma bind_ret_l {A B} (a : A) (k : A -> M B) net :
  (ret a ≫= k) net = k a net.
Proof. apply run_ext; reflexivity. Qed.

Lemma bind_assoc {A B C} (m : M A) (k : A -> M B) (h : B -> M C) net :
  ((m ≫= k) ≫= h) net = (m ≫= fun a => k a ≫= h) net.
Proof.
  apply run_ext.
  - rewrite !outcome_bind, final_bind.
    destruct (outcome (m net)); [rewrite outcome_bind|]; reflexivity.
  - rewrite !final_bind, !outcome_bind.
    destruct (outcome (m net)); [rewrite final_bind|]; reflexivity.
  - rewrite !trace_bind, !outcome_bind, final_bind.
    destruct (outcome (m net)); [|reflexivity].
    rewrite trace_bind. destruct (outcome (k a _)); [|reflexivity].
    rewrite app_assoc. reflexivity.
Qed.

Lemma bind_ext {A B} (m : M A) (k k' : A -> M B) net :
  (forall a n, k a n = k' a n) -> (m ≫= k) net = (m ≫= k') net.
Proof.
  intros Hk. unfold mbind, M_bind, bind.
  destruct (outcome (m net)); [rewrite Hk|]; reflexivity.
Qed.

Lemma bind_run {A B} (m m' : M A) (k : A -> M B) net :
  m net = m' net -> (m ≫= k) net = (m' ≫= k) net.
Proof. intros Hm. unfold mbind, M_bind, bind. rewrite Hm. reflexivity. Qed.

End MonadLaws.

Section Pagination.
Context `{Unicode} `{Network}.

Lemma extract_links_app s links :
  extract_links s links = links ++ Spec.member_hrefs s.
Proof.
  unfold extract_links, Spec.member_hrefs.
  generalize (select_member_links s) as tags. intros tags. revert links.
  induction tags as [|a tags IH]; intros links; cbn [fold_left omap list_omap].
  - rewrite app_nil_r. reflexivity.
  - rewrite IH. destruct (tag_get a (u "href")) as [[|c href]|]; cbn [truthy];
      [reflexivity| |reflexivity].
    rewrite <- app_assoc. reflexivity.
Qed.

Lemma extract_parties_app s ps :
  extract_parties s ps = ps ++ Spec.party_labels s.
Proof.
  unfold extract_parties, Spec.party_labels.
  generalize (select_jdang s) as tags. intros tags. revert ps.
  induction tags as [|a tags IH]; intros ps; cbn [fold_left map].
  - rewrite app_nil_r. reflexivity.
  - rewrite IH, <- app_assoc. reflexivity.
Qed.

Lemma pages_from_S p count :
  Spec.pages_from p (S count) = p :: Spec.pages_from (p + 1) count.
Proof.
  unfold Spec.pages_from. cbn [seq map]. f_equal; [lia|].
  rewrite <- seq_shift, map_map. apply map_ext. intros i. lia.
Qed.

Lemma later_pages_soups bid base p count lists net :
  later_pages bid base p count lists net =
  (soups ← Spec.soups_of_pages bid base (Spec.pages_from p count);
   ret (fst lists ++ flat_map Spec.member_hrefs soups,
        snd lists ++ flat_map Spec.party_labels soups)) net.
Proof.
  revert p lists net. induction count as [|count IH]; intros p lists net.
  - cbn [later_pages Spec.pages_from seq map Spec.soups_of_pages].
    rewrite bind_ret_l. cbn [flat_map]. rewrite !app_nil_r.
    destruct lists; reflexivity.
  - rewrite pages_from_S. cbn [later_pages Spec.soups_of_pages].
    rewrite bind_assoc. apply bind_ext. intros s n.
    rewrite bind_assoc, IH. apply bind_ext. intros soups n'.
    rewrite bind_ret_l. cbn [extract fst snd flat_map].
    rewrite extract_links_app, extract_parties_app, <- !app_assoc. reflexivity.
Qed.

Lemma collect_members_by_pages bid net :
  collect_members_from_popup bid net = Spec.collect_by_pages bid net.
Proof.
  unfold collect_members_from_popup, Spec.collect_by_pages.
  apply bind_ext. intros base n1. apply bind_ext. intros soup1 n2.
  apply bind_ext. intros total n3.
  replace (Z.to_nat (total + 1 - 2)) with (Z.to_nat (total - 1)) by (f_equal; lia).
  rewrite (bind_run _ _ _ _ (later_pages_soups bid base 2 (Z.to_nat (total - 1)) _ n3)).
  rewrite bind_assoc. apply bind_ext. intros soups n4.
  rewrite bind_ret_l. cbn [extract fst snd flat_map].
  rewrite extract_links_app, extract_parties_app. reflexivity.
Qed.

Lemma try_candidate_run base p page net :
  outcome (try_candidate base p page net) = Ok (Spec.listing_under base page p net) /\
  final (try_candidate base p page net) =
    final (fetch (page_url base p page) RETRY true net) /\
  trace (try_candidate base p page net) =
    trace (fetch (page_url base p page) RETRY true net).
Proof.
  unfold try_candidate, Spec.listing_under.
  rewrite outcome_catch, final_catch, trace_catch.
  rewrite !outcome_bind, !final_bind, !trace_bind.
  destruct (outcome (fetch _ RETRY true net)) as [resp|e].
  - rewrite outcome_BeautifulSoup, final_BeautifulSoup, trace_BeautifulSoup.
    destruct (parsed resp) as [s|e].
    + destruct (has_member_list s); cbn; rewrite ?app_nil_r; auto.
    + cbn. rewrite !app_nil_r. auto.
  - cbn. rewrite app_nil_r. auto.
Qed.

Lemma after_probes_app base page tried rest net :
  Spec.after_probes base page (tried ++ rest) net =
  Spec.after_probes base page rest (Spec.after_probes base page tried net).
Proof.
  revert net. induction tried as [|c tried IH]; intros net; [reflexivity|].
  cbn [app Spec.after_probes]. apply IH.
Qed.

Lemma probe_events_app base page tried rest net :
  Spec.probe_events base page (tried ++ rest) net =
  Spec.probe_events base page tried net ++
  Spec.probe_events base page rest (Spec.after_probes base page tried net).
Proof.
  revert net. induction tried as [|c tried IH]; intros net; [reflexivity|].
  cbn [app Spec.after_probes Spec.probe_events]. rewrite IH, app_assoc. reflexivity.
Qed.

(** The candidate loop when none of the names shows a listing. *)
Lemma try_candidates_none cands base page net :
  Spec.none_shows base page cands net ->
  outcome (try_candidates cands base page net) = Ok None /\
  final (try_candidates cands base page net) = Spec.after_probes base page cands net /\
  trace (try_candidates cands base page net) = Spec.probe_events base page cands net.
Proof.
  revert net. induction cands as [|c cands IH]; intros net; [cbn; auto|].
  cbn [Spec.none_shows]. intros [Hc Hrest].
  destruct (try_candidate_run base c page net) as (Ho & Hf & Ht).
  cbn [try_candidates Spec.after_probes Spec.probe_events].
  rewrite outcome_bind, final_bind, trace_bind, Ho, Hc, Hf, Ht.
  destruct (IH _ Hrest) as (-> & -> & ->). auto.
Qed.

(** The candidate loop stops at the first name that shows a listing. *)
Lemma try_candidates_first tried c rest base page net s :
  Spec.none_shows base page tried net ->
  Spec.listing_under base page c (Spec.after_probes base page tried net) = Some s ->
  outcome (try_candidates (tried ++ c :: rest) base page net) = Ok (Some s) /\
  final (try_candidates (tried ++ c :: rest) base page net) =
    Spec.after_probes base page (tried ++ [c]) net /\
  trace (try_candidates (tried ++ c :: rest) base page net) =
    Spec.probe_events base page (tried ++ [c]) net.
Proof.
  revert net. induction tried as [|t tried IH]; intros net.
  - intros _ Hc. cbn [app Spec.after_probes Spec.probe_events] in *.
    destruct (try_candidate_run base c page net) as (Ho & Hf & Ht).
    cbn [try_candidates]. rewrite outcome_bind, final_bind, trace_bind, Ho, Hc, Hf, Ht.
    cbn. rewrite !app_nil_r. auto.
  - cbn [Spec.none_shows]. intros [Ht Hrest] Hc.
    destruct (try_candidate_run base t page net) as (Ho & Hf & Htr).
    cbn [app try_candidates Spec.after_probes Spec.probe_events] in *.
    rewrite outcome_bind, final_bind, trace_bind, Ho, Ht, Hf, Htr.
    destruct (IH _ Hrest Hc) as (-> & -> & ->). auto.
Qed.

(** Either some name is the first to show a listing, or none does. *)
Lemma first_listing_or_none cands base page net :
  Spec.none_shows base page cands net \/
  exists tried c rest s,
    cands = tried ++ c :: rest /\
    Spec.none_shows base page tried net /\
    Spec.listing_under base page c (Spec.after_probes base page tried net) = Some s.
Proof.
  revert net. induction cands as [|c cands IH]; intros net; [left; exact I|].
  destruct (Spec.listing_under base page c net) as [s|] eqn:Hc.
  - right. exists [], c, cands, s. cbn. auto.
  - destruct (IH (final (fetch (page_url base c page) RETRY true net)))
      as [Hnone|(tried & d & rest & s & -> & Hnone & Hd)].
    + left. cbn. auto.
    + right. exists (c :: tried), d, rest, s. cbn. auto.
Qed.

(** C7, as the code has it.  Page 1 is obtained by one call of
    [proposer_soup] and its entries are taken once; each page from 2 to
    the total is obtained, in ascending order, by a call of its own,
    and the entries of these pages are concatenated in page order.
    Every call, whatever the page, goes through the candidate names
    afresh in their fixed order, each fetched on the network its
    predecessors left: it returns the page of the first name whose page
    was fetched, parsed and has the member list, having requested
    nothing beyond that name; when none of the five names shows a
    listing it fetches and parses the bare base URL.  No parameter name
    is kept from one page to the next. *)
Theorem pages_probed_one_by_one bid :
  (forall net, collect_members_from_popup bid net = Spec.collect_by_pages bid net) /\
  (forall base page net tried c rest s,
     candidates = tried ++ c :: rest ->
     Spec.none_shows base page tried net ->
     Spec.listing_under base page c (Spec.after_probes base page tried net) = Some s ->
     outcome (proposer_soup bid base page net) = Ok s /\
     trace (proposer_soup bid base page net) =
       Spec.probe_events base page (tried ++ [c]) net /\
     final (proposer_soup bid base page net) =
       Spec.after_probes base page (tried ++ [c]) net) /\
  (forall base page net,
     Spec.none_shows base page candidates net ->
     let net' := Spec.after_probes base page candidates net in
     outcome (proposer_soup bid base page net) =
       match outcome (fetch base RETRY true net') with
       | Ok resp => parsed resp
       | Raise e => Raise e
       end /\
     trace (proposer_soup bid base page net) =
       Spec.probe_events base page candidates net ++ trace (fetch base RETRY true net') /\
     final (proposer_soup bid base page net) = final (fetch base RETRY true net')) /\
  (forall base page net,
     Spec.none_shows base page candidates net \/
     exists tried c rest s,
       candidates = tried ++ c :: rest /\
       Spec.none_shows base page tried net /\
       Spec.listing_under base page c (Spec.after_probes base page tried net) = Some s).
Proof.
  split; [apply collect_members_by_pages|]. split; [|split].
  - intros base page net tried c rest s Hsplit Hnone Hc.
    unfold proposer_soup. rewrite outcome_bind, trace_bind, final_bind, Hsplit.
    destruct (try_candidates_first tried c rest base page net s Hnone Hc)
      as (-> & -> & ->).
    cbn. rewrite app_nil_r. auto.
  - intros base page net Hnone net'. subst net'.
    unfold proposer_soup. rewrite outcome_bind, trace_bind, final_bind.
    destruct (try_candidates_none candidates base page net Hnone) as (-> & -> & ->).
    rewrite outcome_bind, trace_bind, final_bind.
    destruct (outcome (fetch base RETRY true _)) as [resp|e]; [|auto].
    unfold BeautifulSoup. cbn [lift outcome trace final].
    rewrite app_nil_r. auto.
  - intros base page net. apply first_listing_or_none.
Qed.

End Pagination.

(** C7, as stated, fails: on a site where [pageIndex] works for page 1
    but the page for [pageIndex=2] has no listing, page 2 is taken from
    [pageNo=2]; the requests are not those of a walk under one fixed
    parameter name, and the entry of page 1 is collected twice. *)
Lemma parameter_not_fixed :
  let r := @collect_members_from_popup ascii_tables Sample.moody_site Sample.bill tt in
  outcome r =
    Ok ([Sample.member_url; Sample.member_url], [u "A"; u "A"], 2%nat) /\
  Spec.requested (trace r) =
    [ detail_url Sample.bill;
      page_url Sample.base_url (u "pageIndex") 1;
      page_url Sample.base_url (u "pageIndex") 2;
      page_url Sample.base_url (u "pageNo") 2 ] /\
  ~ exists n, (n < length candidates)%nat /\
              Spec.requested (trace r) =
              Spec.fixed_parameter_requests Sample.bill Sample.base_url 2 n.
Proof.
  intros r. split; [vm_compute; reflexivity|]. split; [vm_compute; reflexivity|].
  intros (n & Hn & E).
  assert (Hb : bool_decide (Spec.requested (trace r) =
                 Spec.fixed_parameter_requests Sample.bill Sample.base_url 2 n) = true)
    by (apply bool_decide_eq_true; exact E).
  clear E. cbn [length candidates] in Hn.
  do 5 (destruct n as [|n]; [vm_compute in Hb; discriminate|]). lia.
Qed.

Lemma pages_probed_one_by_one_witness :
  @outcome Sample.moody_site _
    (@proposer_soup Sample.moody_site Sample.bill Sample.base_url 2 tt)
  = Ok Sample.page1.
Proof.
  refine (proj1 (proj1 (proj2 (@pages_probed_one_by_one ascii_tables Sample.moody_site
                                 Sample.bill))
            Sample.base_url 2 tt [u "pageIndex"] (u "pageNo")
            [u "page"; u "currPage"; u "pageNum"] Sample.page1 _ _ _)).
  - reflexivity.
  - vm_compute. split; [reflexivity | exact I].
  - vm_compute. reflexivity.
Defined.

(** ** Fetch client *)

Section Retry.
Context `{Network}.

Lemma attempt_trace url uc net :
  trace (attempt url uc net) = [Get url uc] \/
  trace (attempt url uc net) = [Get url uc; Sleep SLEEP].
Proof.
  unfold attempt, get, raise_for_status, mbind, M_bind, bind. cbn.
  destruct (session_get url net) as [[resp|e] n']; cbn; [|auto].
  destruct ((400 <=? status_code resp) && (status_code resp <? 600)); cbn; [auto|].
  destruct (uc && negb (from_cache resp)); cbn; auto.
Qed.

Lemma retry_without_cache_run url e net :
  trace (retry_without_cache url e net) = [LogCacheTypeError url e; Get url false] /\
  outcome (retry_without_cache url e net) =
    match fst (session_get url net) with
    | Ok resp =>
        if (400 <=? status_code resp) && (status_code resp <? 600)
        then Raise (HTTPError (status_code resp))
        else Ok resp
    | Raise e' => Raise e'
    end.
Proof.
  unfold retry_without_cache, get, raise_for_status, emit, mbind, M_bind, bind. cbn.
  destruct (session_get url net) as [[resp|e'] n']; cbn; [|auto].
  destruct ((400 <=? status_code resp) && (status_code resp <? 600)); cbn; auto.
Qed.









Lemma requested_attempt url uc net rest :
  Spec.requested (trace (attempt url uc net) ++ rest) = url :: Spec.requested rest.
Proof.
  destruct (attempt_trace url uc net) as [-> | ->]; reflexivity.
Qed.

(** One round of the loop. *)
Lemma fetch_loop_returns url uc a n le net resp :
  outcome (attempt url uc net) = Ok resp ->
  fetch_loop url uc a (S n) le net = attempt url uc net.
Proof. intros Ha. cbn [fetch_loop]. unfold catch. rewrite Ha. reflexivity. Qed.

Lemma fetch_loop_retries url uc a n le net e :
  outcome (attempt url uc net) = Raise e -> is_TypeError e = false ->
  let next := fetch_loop url uc (a + 1) n (Some e) (final (attempt url uc net)) in
  outcome (fetch_loop url uc a (S n) le net) = outcome next /\
  final (fetch_loop url uc a (S n) le net) = final next /\
  trace (fetch_loop url uc a (S n) le net) =
    trace (attempt url uc net) ++ Sleep (250 * a) :: trace next.
Proof.
  intros Ha He next. cbn [fetch_loop].
  rewrite outcome_catch, final_catch, trace_catch, Ha, He.
  rewrite outcome_bind, final_bind, trace_bind. cbn. auto.
Qed.

Lemma fetch_loop_type_error url uc a n le net e :
  outcome (attempt url uc net) = Raise e -> is_TypeError e = true ->
  let again := retry_without_cache url e (final (attempt url uc net)) in
  outcome (fetch_loop url uc a (S n) le net) = outcome again /\
  final (fetch_loop url uc a (S n) le net) = final again /\
  trace (fetch_loop url uc a (S n) le net) =
    trace (attempt url uc net) ++ trace again.
Proof.
  intros Ha He again. cbn [fetch_loop].
  rewrite outcome_catch, final_catch, trace_catch, Ha, He. auto.
Qed.






End Retry.



Lemma assembly_context_by_position_witness :
  base_assembly_at (first21_idx [u "PRC_X"; FIRST_21_BILL_ID; u "PRC_Y"]) 0 = 20 /\
  base_assembly_at (first21_idx [u "PRC_X"; FIRST_21_BILL_ID; u "PRC_Y"]) 2 = 21.
Proof.
  assert (Hfirst : forall j, (j < 1)%nat ->
            [u "PRC_X"; FIRST_21_BILL_ID; u "PRC_Y"] !! j <> Some FIRST_21_BILL_ID).
  { intros [|j] Hj; [|lia]. intros E. vm_compute in E. discriminate. }
  split.
  - refine (proj1 (proj1 (@assembly_context_by_position ascii_tables Sample.down
      Sample.symbolic [u "PRC_X"; FIRST_21_BILL_ID; u "PRC_Y"]) 1%nat _ Hfirst 0%nat) _);
      [reflexivity | lia].
  - refine (proj2 (proj1 (@assembly_context_by_position ascii_tables Sample.down
      Sample.symbolic [u "PRC_X"; FIRST_21_BILL_ID; u "PRC_Y"]) 1%nat _ Hfirst 2%nat) _);
      [reflexivity | lia].
Defined.

(** ** Average seniority *)

Section Average.
Context `{FloatArith}.

Lemma sum_cons x xs : sum (x :: xs) = x + sum xs.
Proof.
  unfold sum. cbn [fold_left]. rewrite Z.add_0_l.
  revert x. induction xs as [|y xs IH]; intros x; cbn [fold_left]; [lia|].
  rewrite (IH (x + y)), (IH (0 + y)). lia.
Qed.

Lemma sum_Permutation (vs vs' : list Z) : Permutation vs vs' -> sum vs = sum vs'.
Proof.
  induction 1 as [|x l l' _ IH|x y l|l l' l'' _ IH1 _ IH2].
  - reflexivity.
  - rewrite !sum_cons, IH. reflexivity.
  - rewrite !sum_cons. lia.
  - congruence.
Qed.

Lemma sum_bounds (lo hi : Z) (vs : list Z) :
  Forall (fun v => lo <= v <= hi) vs ->
  lo * Z.of_nat (length vs) <= sum vs <= hi * Z.of_nat (length vs).
Proof.
  induction 1 as [|v vs Hv _ IH].
  - cbn. lia.
  - rewrite sum_cons. cbn [length]. lia.
Qed.

(** Of the list, [average] uses the sum and the length only. *)
Lemma average_of_sum_and_length (seniorities : list Z) :
  seniorities <> [] ->
  average seniorities =
  rbind (truediv (sum seniorities) (Z.of_nat (length seniorities)))
    (fun mean => rbind (round_ndigits mean 2) (fun avg => Ok (Some avg))).
Proof. destruct seniorities; [congruence | reflexivity]. Qed.

Lemma average_absent_iff_empty (seniorities : list Z) :
  average seniorities = Ok None <-> seniorities = [].
Proof.
  destruct seniorities as [|v vs]; [split; reflexivity|].
  split; [|discriminate]. cbn [average].
  destruct (truediv _ _) as [mean|]; [|discriminate]. cbn [rbind].
  destruct (round_ndigits mean 2); discriminate.
Qed.

Lemma average_Permutation (vs vs' : list Z) :
  Permutation vs vs' -> average vs = average vs'.
Proof.
  intros Hp.
  destruct vs as [|v vs].
  - apply Permutation_nil in Hp. subst. reflexivity.
  - destruct vs' as [|v' vs'];
      [symmetry in Hp; apply Permutation_nil in Hp; discriminate|].
    rewrite !average_of_sum_and_length by discriminate.
    rewrite (sum_Permutation _ _ Hp), (Permutation_length Hp). reflexivity.
Qed.

End Average.

Lemma float_eqb_eq (x y : spec_float) : Spec.float_eqb x y = true -> x = y.
Proof.
  destruct x as [a|a| |a m e], y as [b|b| |b m' e']; cbn; try discriminate;
    try reflexivity.
  - intros E. apply Bool.eqb_prop in E. congruence.
  - intros E. apply Bool.eqb_prop in E. congruence.
  - intros E. apply andb_prop in E as [E Ee]. apply andb_prop in E as [Es Em].
    apply Bool.eqb_prop in Es. apply Pos.eqb_eq in Em. apply Z.eqb_eq in Ee.
    congruence.
Qed.

(** [round(s / n, 2)] for every count up to 100 and every sum that
    values from 1 to 10 can have, by evaluation. *)
Lemma rounds_well_100 : Spec.rounds_well_upto 100 = true.
Proof. vm_compute. reflexivity. Qed.

Lemma rounds_well_upto_spec (bound : nat) (s : Z) (n : nat) :
  Spec.rounds_well_upto bound = true ->
  (1 <= n <= bound)%nat -> Z.of_nat n <= s <= 10 * Z.of_nat n ->
  Spec.rounds_well s (Z.of_nat n) = true.
Proof.
  unfold Spec.rounds_well_upto. intros Hall Hn Hs.
  rewrite List.forallb_forall in Hall.
  specialize (Hall n). rewrite List.forallb_forall in Hall.
  replace s with (Z.of_nat n + Z.of_nat (Z.to_nat (s - Z.of_nat n))) by lia.
  apply Hall; apply in_seq; lia.
Qed.

Lemma rounds_well_in_range (s : Z) (n : nat) :
  (1 <= n <= 100)%nat -> Z.of_nat n <= s <= 10 * Z.of_nat n ->
  Spec.rounds_well s (Z.of_nat n) = true.
Proof. exact (rounds_well_upto_spec 100 s n rounds_well_100). Qed.

(** C4, as the code has it.  The average is absent, and not zero,
    exactly when no seniority was resolved; it depends on the values
    only through their sum and their number, so it is the same for any
    order of the values.  It is [round(sum / len, 2)] on binary64
    floats: for up to 100 values, each from 1 to 10, it is the float of
    the mean rounded to two decimals whenever the mean is not halfway
    between two such decimals, and the float of one of these two
    decimals when it is halfway. *)
Theorem average_seniority_rounding :
  (forall (F : FloatArith) (vs : list Z), @average F vs = Ok None <-> vs = []) /\
  (forall (F : FloatArith) (vs vs' : list Z),
     Permutation vs vs' -> @average F vs = @average F vs') /\
  (forall vs : list Z,
     vs <> [] -> (length vs <= 100)%nat -> Forall (fun v => 1 <= v <= 10) vs ->
     exists avg,
       @average binary64 vs = Ok (Some avg) /\
       if Spec.mean_is_tie vs
       then avg = Spec.two_decimals (Spec.hundredths_below_mean vs) \/
            avg = Spec.two_decimals (Spec.hundredths_below_mean vs + 1)
       else avg = Spec.two_decimals (Spec.hundredths_of_mean vs)).
Proof.
  split; [intros F vs; apply average_absent_iff_empty|].
  split; [intros F vs vs'; apply average_Permutation|].
  intros vs Hne Hlen Hvs.
  assert (Hn : (1 <= length vs <= 100)%nat).
  { destruct vs; [congruence|]. cbn [length] in *. lia. }
  pose proof (sum_bounds 1 10 vs Hvs) as Hs.
  pose proof (rounds_well_in_range (sum vs) (length vs) Hn ltac:(lia)) as Hw.
  rewrite (@average_of_sum_and_length binary64 vs Hne).
  unfold Spec.rounds_well, Spec.rounded_quotient in Hw.
  unfold Spec.mean_is_tie, Spec.two_decimals, Spec.hundredths_below_mean,
    Spec.hundredths_of_mean.
  change (@truediv binary64) with Binary64.truediv.
  change (@round_ndigits binary64) with Binary64.round_ndigits.
  destruct (Binary64.truediv (sum vs) (Z.of_nat (length vs))) as [q|];
    cbn [rbind] in *; [|discriminate].
  destruct (Binary64.round_ndigits q 2) as [a|]; cbn [rbind]; [|discriminate].
  exists a. split; [reflexivity|].
  destruct (2 * ((100 * sum vs) mod Z.of_nat (length vs)) =? Z.of_nat (length vs)).
  - apply orb_prop in Hw as [Hw|Hw]; [left|right]; apply float_eqb_eq, Hw.
  - apply float_eqb_eq, Hw.
Qed.

(** C4, as stated, fails: for forty sponsors whose seniorities add up
    to 107 the mean is 2.675, which rounds to 2.68; the float of
    107 / 40 lies below 2.675 and the average of the code is 2.67. *)
Lemma mean_rounded_down :
  sum Sample.forty_sponsors = 107 /\
  length Sample.forty_sponsors = 40%nat /\
  Spec.hundredths_of_mean Sample.forty_sponsors = 268 /\
  @average binary64 Sample.forty_sponsors = Ok (Some (Spec.two_decimals 267)) /\
  Spec.two_decimals 267 <> Spec.two_decimals 268.
Proof.
  split; [reflexivity|]. split; [reflexivity|]. split; [reflexivity|].
  split; [vm_compute; reflexivity|]. vm_compute. discriminate.
Qed.

Lemma average_seniority_rounding_witness :
  exists avg,
    @average binary64 [1; 2; 2] = Ok (Some avg) /\ avg = Spec.two_decimals 167.
Proof.
  destruct (proj2 (proj2 average_seniority_rounding) [1; 2; 2])
    as (avg & Havg & Hmean).
  - discriminate.
  - cbn. lia.
  - repeat constructor; lia.
  - exists avg. split; [exact Havg|]. vm_compute in Hmean. vm_compute. exact Hmean.
Defined.

(** * Further properties of the script *)

(** ** Fetch client: edge cases, requests and delays *)

Section FetchFacts.
Context `{Network}.

(** [fetch] with [retry <= 0] makes no request at all and raises the
    [TypeError] of [raise None]. *)
Theorem fetch_without_attempts url retry uc net :
  retry <= 0 ->
  outcome (fetch url retry uc net) = Raise RaiseNone /\
  trace (fetch url retry uc net) = [] /\
  final (fetch url retry uc net) = net.
Proof.
  intros Hr. unfold fetch. replace (Z.to_nat retry) with O by lia.
  cbn. auto.
Qed.

Lemma attempt_raise_trace url uc net e :
  outcome (attempt url uc net) = Raise e -> trace (attempt url uc net) = [Get url uc].
Proof.
  unfold attempt, get, raise_for_status, mbind, M_bind, bind. cbn.
  destruct (session_get url net) as [[resp|e'] n']; cbn; [|reflexivity].
  destruct ((400 <=? status_code resp) && (status_code resp <? 600)); cbn;
    [reflexivity|].
  destruct (uc && negb (from_cache resp)); cbn; discriminate.
Qed.

Lemma attempt_ok_status url uc net resp :
  outcome (attempt url uc net) = Ok resp ->
  Spec.error_status (status_code resp) = false.
Proof.
  unfold attempt, get, raise_for_status, Spec.error_status, mbind, M_bind, bind. cbn.
  destruct (session_get url net) as [[resp'|e'] n']; cbn; [|discriminate].
  destruct ((400 <=? status_code resp') && (status_code resp' <? 600)) eqn:E; cbn;
    [discriminate|].
  destruct (uc && negb (from_cache resp')); cbn; intros [= <-]; exact E.
Qed.

Lemma fetch_loop_events url uc a n le net :
  Forall (Spec.fetch_event url uc) (trace (fetch_loop url uc a n le net)) /\
  (length (Spec.requested (trace (fetch_loop url uc a n le net))) <= n + 1)%nat.
Proof.
  revert a le net. induction n as [|n IH]; intros a le net.
  - cbn. destruct le; cbn; split; first [lia | constructor].
  - assert (Hatt : Forall (Spec.fetch_event url uc) (trace (attempt url uc net))).
    { destruct (attempt_trace url uc net) as [-> | ->];
        repeat constructor; cbn; auto. }
    destruct (outcome (attempt url uc net)) as [resp|e] eqn:Ha.
    + rewrite (fetch_loop_returns _ _ _ _ _ _ _ Ha). split; [exact Hatt|].
      rewrite <- (app_nil_r (trace _)), requested_attempt. cbn. lia.
    + destruct (is_TypeError e) eqn:He.
      * destruct (fetch_loop_type_error url uc a n le net e Ha He) as (_ & _ & ->).
        destruct (retry_without_cache_run url e (final (attempt url uc net))) as [-> _].
        split.
        -- apply Forall_app. split; [exact Hatt|].
           constructor; [reflexivity|].
           constructor; [split; [reflexivity | right; reflexivity] | constructor].
        -- rewrite requested_attempt. cbn. lia.
      * destruct (fetch_loop_retries url uc a n le net e Ha He) as (_ & _ & ->).
        destruct (IH (a + 1) (Some e) (final (attempt url uc net))) as [Hf Hl].
        split.
        -- apply Forall_app. split; [exact Hatt|]. constructor; [exact I | exact Hf].
        -- rewrite requested_attempt. cbn [Spec.requested omap list_omap length].
           change (omap _ ?l) with (Spec.requested l). lia.
Qed.

Lemma requested_app evs1 evs2 :
  Spec.requested (evs1 ++ evs2) = Spec.requested evs1 ++ Spec.requested evs2.
Proof. unfold Spec.requested. apply omap_app. Qed.

Lemma fetch_requested url retry uc net :
  Forall (fun requested_url => requested_url = url)
    (Spec.requested (trace (fetch url retry uc net))) /\
  (length (Spec.requested (trace (fetch url retry uc net))) <= Z.to_nat retry + 1)%nat.
Proof.
  destruct (fetch_loop_events url uc 1 (Z.to_nat retry) None net) as [Hev Hlen].
  split; [|exact Hlen].
  unfold fetch. revert Hev.
  generalize (trace (fetch_loop url uc 1 (Z.to_nat retry) None net)) as evs.
  induction evs as [|ev evs IH]; intros Hev; [constructor|].
  inversion Hev as [|? ? Hhd Htl]; subst.
  destruct ev; cbn in *; try (apply IH; exact Htl).
  constructor; [tauto | apply IH; exact Htl].
Qed.

(** Whatever the network does, [fetch] only requests the URL it was
    given, each request made as the flag of the call says or inside a
    [requests_cache.disabled()] block, and makes at most one request
    more than [retry]. *)
Theorem fetch_requests_only_its_url url retry uc net :
  Forall (Spec.fetch_event url uc) (trace (fetch url retry uc net)) /\
  Forall (fun requested_url => requested_url = url)
    (Spec.requested (trace (fetch url retry uc net))) /\
  (length (Spec.requested (trace (fetch url retry uc net))) <= Z.to_nat retry + 1)%nat.
Proof.
  split; [apply fetch_loop_events | apply fetch_requested].
Qed.

Lemma fetch_loop_ok_status url uc a n le net resp :
  outcome (fetch_loop url uc a n le net) = Ok resp ->
  Spec.error_status (status_code resp) = false.
Proof.
  revert a le net. induction n as [|n IH]; intros a le net.
  - cbn. destruct le; discriminate.
  - destruct (outcome (attempt url uc net)) as [resp'|e] eqn:Ha.
    + rewrite (fetch_loop_returns _ _ _ _ _ _ _ Ha), Ha. intros [= <-].
      eapply attempt_ok_status, Ha.
    + destruct (is_TypeError e) eqn:He.
      * destruct (fetch_loop_type_error url uc a n le net e Ha He) as (-> & _ & _).
        destruct (retry_without_cache_run url e (final (attempt url uc net))) as [_ ->].
        destruct (fst (session_get url _)) as [r|e']; [|discriminate].
        unfold Spec.error_status.
        destruct ((400 <=? status_code r) && (status_code r <? 600)) eqn:E;
          [discriminate|]. intros [= <-]. exact E.
      * destruct (fetch_loop_retries url uc a n le net e Ha He) as (-> & _ & _).
        apply IH.
Qed.

(** A response that [fetch] returns never has a status from 400 to
    599, on the retry path and on the path that follows a [TypeError]
    alike. *)
Theorem fetch_returns_no_error_status url retry uc net resp :
  outcome (fetch url retry uc net) = Ok resp ->
  ~ (400 <= status_code resp < 600).
Proof.
  intros Hok. apply fetch_loop_ok_status in Hok.
  unfold Spec.error_status in Hok. apply andb_false_iff in Hok.
  rewrite Z.leb_gt, Z.ltb_ge in Hok. lia.
Qed.

Lemma slept_failed_rounds url uc a n :
  Spec.slept (Spec.failed_rounds url uc a n) =
  125 * Z.of_nat n * (2 * a + Z.of_nat n - 1).
Proof.
  revert a. induction n as [|n IH]; intros a; [reflexivity|].
  cbn [Spec.failed_rounds Spec.slept]. rewrite IH. lia.
Qed.

Lemma fetch_loop_all_failed url uc n a le net :
  (forall k, (k < n)%nat ->
             Spec.failed_attempt url uc (Spec.after_attempts url uc k net)) ->
  trace (fetch_loop url uc a n le net) = Spec.failed_rounds url uc a n.
Proof.
  revert a le net. induction n as [|n IH]; intros a le net Hall.
  - cbn. destruct le; reflexivity.
  - destruct (Hall O ltac:(lia)) as (e & Ha & He). cbn in Ha.
    destruct (fetch_loop_retries url uc a n le net e Ha He) as (_ & _ & ->).
    rewrite (attempt_raise_trace _ _ _ _ Ha), IH; [reflexivity|].
    intros k Hk. apply (Hall (S k)). lia.
Qed.

(** When every attempt fails, the trace of [fetch] is one request per
    attempt, each followed by a delay of 0.25 s times its number, the
    last attempt included: the call has slept 0.125 * n * (n + 1)
    seconds when it raises, 1.5 s for the default three attempts. *)
Theorem fetch_backoff_when_all_fail url retry uc net :
  (forall k, (k < Z.to_nat retry)%nat ->
             Spec.failed_attempt url uc (Spec.after_attempts url uc k net)) ->
  trace (fetch url retry uc net) = Spec.failed_rounds url uc 1 (Z.to_nat retry) /\
  Spec.slept (trace (fetch url retry uc net)) =
    125 * Z.of_nat (Z.to_nat retry) * (Z.of_nat (Z.to_nat retry) + 1) /\
  (retry = RETRY -> Spec.slept (trace (fetch url retry uc net)) = 1500).
Proof.
  intros Hall. unfold fetch.
  rewrite (fetch_loop_all_failed url uc _ 1 None net Hall), slept_failed_rounds.
  split; [reflexivity|]. split; [f_equal; lia|].
  intros ->. reflexivity.
Qed.

(** When the first request is answered with a status that is not an
    error, [fetch] returns that response after this single request; the
    politeness delay follows only if the call has [use_cache] set and
    the response did not come from the cache. *)
Theorem fetch_first_answer url retry uc net resp net' :
  0 < retry ->
  session_get url net = (Ok resp, net') ->
  Spec.error_status (status_code resp) = false ->
  outcome (fetch url retry uc net) = Ok resp /\
  final (fetch url retry uc net) = net' /\
  trace (fetch url retry uc net) =
    Get url uc :: (if uc && negb (from_cache resp) then [Sleep SLEEP] else []).
Proof.
  intros Hr Hget Hst. unfold fetch.
  destruct (Z.to_nat retry) as [|n] eqn:En; [lia|].
  assert (Hrun : attempt url uc net =
                 mkRun (Ok resp) net'
                   (Get url uc :: (if uc && negb (from_cache resp)
                                   then [Sleep SLEEP] else []))).
  { unfold attempt, get, raise_for_status, mbind, M_bind, bind. cbn.
    rewrite Hget. cbn. unfold Spec.error_status in Hst. rewrite Hst. cbn.
    destruct (uc && negb (from_cache resp)); reflexivity. }
  rewrite (fetch_loop_returns url uc 1 n None net resp); rewrite Hrun; auto.
Qed.

End FetchFacts.

Lemma fetch_without_attempts_witness :
  @outcome Sample.scripted _
    (@fetch Sample.scripted Sample.member_url 0 true Sample.third_time_lucky)
  = Raise RaiseNone.
Proof.
  refine (proj1 (@fetch_without_attempts Sample.scripted Sample.member_url 0 true
                   Sample.third_time_lucky _)). lia.
Defined.

Lemma fetch_returns_no_error_status_witness :
  @outcome Sample.scripted _
    (@fetch Sample.scripted Sample.member_url RETRY true Sample.third_time_lucky)
  = Sample.ok_response Sample.empty_soup /\
  ~ (400 <= 200 < 600).
Proof.
  assert (E : @outcome Sample.scripted _
                (@fetch Sample.scripted Sample.member_url RETRY true
                   Sample.third_time_lucky)
              = Sample.ok_response Sample.empty_soup) by (vm_compute; reflexivity).
  split; [exact E|].
  exact (@fetch_returns_no_error_status Sample.scripted Sample.member_url RETRY true
           Sample.third_time_lucky
           (Sample.page Sample.empty_soup) E).
Defined.

Lemma fetch_backoff_when_all_fail_witness :
  Spec.slept
    (@trace Sample.down _ (@fetch Sample.down Sample.member_url RETRY true tt))
  = 1500.
Proof.
  refine (proj2 (proj2 (@fetch_backoff_when_all_fail Sample.down Sample.member_url
                          RETRY true tt _)) eq_refl).
  intros k Hk. exists Sample.timeout.
  assert (Hnet : forall j, @Spec.after_attempts Sample.down Sample.member_url true j tt = tt)
    by (intros j; destruct (@Spec.after_attempts Sample.down _ _ j tt); reflexivity).
  rewrite Hnet. vm_compute. auto.
Defined.

Lemma fetch_first_answer_witness :
  @trace Sample.scripted _
    (@fetch Sample.scripted Sample.member_url RETRY true
       [Sample.ok_response Sample.empty_soup])
  = [Get Sample.member_url true; Sleep SLEEP].
Proof.
  refine (proj2 (proj2 (@fetch_first_answer Sample.scripted Sample.member_url RETRY true
            [Sample.ok_response Sample.empty_soup]
            (Sample.page Sample.empty_soup)
            [] _ _ _)));
    [reflexivity | reflexivity | reflexivity].
Defined.

(** ** Patterns and [int]: what a digit group can be *)

Section Groups.
Context `{Unicode}.

Lemma rep_match_inv {R} cls (k : str -> str -> option R) consumed s r :
  rep_match cls k consumed s = Some r ->
  exists taken rest,
    s = taken ++ rest /\ Forall (fun c => cls c = true) taken /\
    k (consumed ++ taken) rest = Some r.
Proof.
  revert consumed. induction s as [|c s IH]; intros consumed; cbn [rep_match].
  - intros Hk. exists [], [].
    split; [reflexivity|]. split; [constructor|]. rewrite app_nil_r. exact Hk.
  - destruct (cls c) eqn:Ec.
    + destruct (rep_match cls k (consumed ++ [c]) s) as [r'|] eqn:Er.
      * intros [= <-]. destruct (IH _ Er) as (taken & rest & -> & Hall & Hk).
        exists (c :: taken), rest. rewrite <- app_assoc in Hk.
        split; [reflexivity|]. split; [constructor; assumption | exact Hk].
      * intros Hk. exists [], (c :: s).
        split; [reflexivity|]. split; [constructor|]. rewrite app_nil_r. exact Hk.
    + intros Hk. exists [], (c :: s).
        split; [reflexivity|]. split; [constructor|]. rewrite app_nil_r. exact Hk.
Qed.

Lemma has_group_rep cls plus cap pat :
  Spec.has_group (Rep cls plus cap :: pat) = cap || Spec.has_group pat.
Proof. reflexivity. Qed.

Lemma has_group_lit c pat : Spec.has_group (Lit c :: pat) = Spec.has_group pat.
Proof. reflexivity. Qed.

Lemma match_here_no_group pat s g0 g :
  Spec.has_group pat = false -> match_here pat s g0 = Some g -> g = g0.
Proof.
  revert s g0. induction pat as [|[c|cls plus cap] pat IH]; intros s g0.
  - intros _ [= <-]. reflexivity.
  - rewrite has_group_lit. cbn [match_here]. intros Hno.
    destruct s as [|c' s]; [discriminate|].
    destruct (c =? c'); [|discriminate]. apply IH, Hno.
  - rewrite has_group_rep. cbn [match_here]. intros Hno Hm.
    apply orb_false_iff in Hno as [-> Hno].
    apply rep_match_inv in Hm as (taken & rest & _ & _ & Hk).
    destruct (plus && negb (truthy ([] ++ taken))); [discriminate|].
    eapply IH; eassumption.
Qed.

Lemma match_here_group cls pat s g0 g :
  Spec.groups_of_class cls pat -> Spec.has_group pat = true ->
  match_here pat s g0 = Some g ->
  g <> [] /\ Forall (fun c => cls c = true) g.
Proof.
  revert s g0. induction pat as [|[c|cl plus cap] pat IH]; intros s g0 Hcls.
  - discriminate.
  - rewrite has_group_lit. cbn [match_here]. intros Hg.
    inversion Hcls; subst. destruct s as [|c' s]; [discriminate|].
    destruct (c =? c'); [|discriminate]. apply IH; assumption.
  - rewrite has_group_rep. cbn [match_here]. intros Hg Hm.
    inversion Hcls as [|? ? Hhd Htl]; subst.
    apply rep_match_inv in Hm as (taken & rest & _ & Hall & Hk).
    cbn [app] in Hk.
    destruct (plus && negb (truthy taken)) eqn:Eplus; [discriminate|].
    destruct (Spec.has_group pat) eqn:Erest; [eapply IH; eauto|].
    rewrite orb_false_r in Hg. subst cap.
    apply (match_here_no_group _ _ _ _ Erest) in Hk. subst g.
    destruct Hhd as [-> Hsub]. split.
    + destruct taken; [discriminate Eplus | discriminate].
    + eapply Forall_impl; [exact Hall | exact Hsub].
Qed.

Lemma re_search_group cls pat s g :
  Spec.groups_of_class cls pat -> Spec.has_group pat = true ->
  re_search pat s = Some g ->
  g <> [] /\ Forall (fun c => cls c = true) g.
Proof.
  intros Hcls Hg. induction s as [|c s IH]; cbn [re_search].
  - destruct (match_here pat [] []) eqn:E; [|discriminate].
    intros [= <-]. eapply match_here_group; eassumption.
  - destruct (match_here pat (c :: s) []) eqn:E; [|exact IH].
    intros [= <-]. eapply match_here_group; eassumption.
Qed.

Lemma digit_patterns_groups :
  Spec.groups_of_class is_digit re_seniority /\ Spec.has_group re_seniority = true /\
  Spec.groups_of_class is_digit re_pager_total /\ Spec.has_group re_pager_total = true /\
  Spec.groups_of_class is_digit re_fnSearch /\ Spec.has_group re_fnSearch = true.
Proof.
  unfold re_seniority, re_pager_total, re_fnSearch, lits, Spec.groups_of_class,
    Spec.has_group.
  repeat split; rewrite ?existsb_app; cbn [existsb orb];
    rewrite ?orb_true_r; try reflexivity;
    rewrite ?Forall_app; repeat split;
    try (apply Forall_forall; intros a Ha; apply list_elem_of_In, elem_of_list_fmap in Ha;
         destruct Ha as (c & -> & _); exact I);
    repeat constructor; auto.
Qed.

Lemma int_digits_of_digits acc g :
  Forall (fun c => is_digit c = true) g -> exists n, int_digits acc g = Some n.
Proof.
  revert acc. induction g as [|c g IH]; intros acc Hall; cbn [int_digits]; [eauto|].
  inversion Hall as [|? ? Hc Hg]; subst. unfold is_digit in Hc.
  destruct (digit_value c); [apply IH, Hg | discriminate].
Qed.

Lemma int_of_digits g :
  g <> [] -> Forall (fun c => is_digit c = true) g ->
  (Spec.within_digit_limit g -> exists n, int g = Ok n) /\
  (~ Spec.within_digit_limit g -> int g = Raise (IntValueError g)).
Proof.
  intros Hne Hall. unfold int, Spec.within_digit_limit.
  destruct (int_digits_of_digits 0 g Hall) as [n Hn].
  destruct max_str_digits as [limit|].
  - destruct (Nat.ltb_spec limit (length g)).
    + split; [lia | reflexivity].
    + split; [|lia]. intros _. destruct g; [congruence|]. rewrite Hn. eauto.
  - split; [|tauto]. intros _. destruct g; [congruence|]. rewrite Hn. eauto.
Qed.

(** The group of each digit pattern of the script (term count, pager
    total, page link) is a non-empty run of digits, so [int] of it
    never meets an invalid literal: it returns a number unless the
    group is longer than the digit limit of the runtime, and then it
    raises. *)
Theorem int_of_matched_group pat s g :
  pat = re_seniority \/ pat = re_pager_total \/ pat = re_fnSearch ->
  re_search pat s = Some g ->
  g <> [] /\
  Forall (fun c => is_digit c = true) g /\
  (Spec.within_digit_limit g -> exists n, int g = Ok n) /\
  (~ Spec.within_digit_limit g -> int g = Raise (IntValueError g)).
Proof.
  intros Hpat Hs.
  destruct digit_patterns_groups as (C1 & G1 & C2 & G2 & C3 & G3).
  assert (Hg : g <> [] /\ Forall (fun c => is_digit c = true) g).
  { destruct Hpat as [->|[->| ->]];
      [ exact (re_search_group _ _ _ _ C1 G1 Hs)
      | exact (re_search_group _ _ _ _ C2 G2 Hs)
      | exact (re_search_group _ _ _ _ C3 G3 Hs) ]. }
  destruct Hg as [Hne Hall]. split; [exact Hne|]. split; [exact Hall|].
  apply int_of_digits; assumption.
Qed.

(** Reading the raw term count raises only when the digits before the
    suffix are more than the runtime accepts; without a digit limit it
    never raises. *)
Theorem raw_seniority_raises_only_on_limit text e :
  raw_seniority text = Raise e ->
  exists g limit,
    re_search re_seniority text = Some g /\
    max_str_digits = Some limit /\ (limit < length g)%nat /\
    e = IntValueError g.
Proof.
  unfold raw_seniority.
  destruct (re_search re_seniority text) as [g|] eqn:Es; [|discriminate].
  destruct (int_of_matched_group re_seniority text g (or_introl eq_refl) Es)
    as (_ & _ & Hin & Hout).
  unfold Spec.within_digit_limit in *.
  destruct max_str_digits as [limit|].
  - destruct (le_lt_dec (length g) limit) as [Hle|Hlt].
    + destruct (Hin Hle) as [n ->]. discriminate.
    + rewrite Hout by lia. intros [= <-]. exists g, limit. auto.
  - destruct (Hin I) as [n ->]. discriminate.
Qed.

End Groups.

Lemma int_of_matched_group_witness :
  exists n, @int ascii_tables (u "12") = Ok n.
Proof.
  refine (proj1 (proj2 (proj2 (@int_of_matched_group ascii_tables
            (@re_seniority ascii_tables) (u "12선") (u "12") _ _))) _).
  - left. reflexivity.
  - vm_compute. reflexivity.
  - vm_compute. lia.
Defined.

Lemma raw_seniority_raises_only_on_limit_witness :
  let limited := {| digit_value := ascii_digit_value; is_space := ascii_is_space;
                    max_str_digits := Some 2%nat |} in
  exists g limit,
    re_search (@re_seniority limited) (u "123선") = Some g /\
    @max_str_digits limited = Some limit /\ (limit < length g)%nat /\
    IntValueError (u "123") = IntValueError g.
Proof.
  intros limited.
  refine (@raw_seniority_raises_only_on_limit limited (u "123선")
            (IntValueError (u "123")) _).
  vm_compute. reflexivity.
Defined.

(** ** Seniority resolver: order, bounds and absent values *)

Section SeniorityFacts.
Context `{Unicode} `{Network}.

Lemma seniority_of_text_defined text ctx :
  seniority_of_text text ctx =
  match raw_seniority text with
  | Ok (Some raw) =>
      Ok (Some (Z.max 1
        (raw - (if ctx <=? 20
                then b2z (contains (u "제21대") text) + b2z (contains (u "제22대") text)
                else if ctx =? 21 then b2z (contains (u "제22대") text)
                else 0))))
  | Ok None => Ok None
  | Raise e => Raise e
  end.
Proof.
  destruct (raw_seniority text) as [[raw|]|e] eqn:Hraw.
  - apply seniority_of_text_raw, Hraw.
  - unfold seniority_of_text. rewrite Hraw. reflexivity.
  - unfold seniority_of_text. rewrite Hraw. reflexivity.
Qed.

(** For one profile text, a later reference session never gives a
    smaller seniority: the value for context 20 is at most the value for
    21, which is at most the value for 22 and later; and whether a
    value is found at all does not depend on the context. *)
Theorem seniority_monotone_in_context text ctx1 ctx2 :
  ctx1 <= ctx2 ->
  (forall v1 v2,
     seniority_of_text text ctx1 = Ok (Some v1) ->
     seniority_of_text text ctx2 = Ok (Some v2) ->
     v1 <= v2) /\
  (seniority_of_text text ctx1 = Ok None <-> seniority_of_text text ctx2 = Ok None).
Proof.
  intros Hle. rewrite !seniority_of_text_defined.
  destruct (raw_seniority text) as [[raw|]|e].
  - split; [|split; discriminate].
    intros v1 v2 [= <-] [= <-].
    destruct (contains (u "제21대") text), (contains (u "제22대") text); cbn [b2z];
      destruct (Z.leb_spec ctx1 20), (Z.leb_spec ctx2 20),
               (Z.eqb_spec ctx1 21), (Z.eqb_spec ctx2 21); lia.
  - split; [discriminate | tauto].
  - split; [discriminate | tauto].
Qed.

(** The normalisation never adds terms and takes away at most two: the
    value lies between the raw count minus 2 and the larger of 1 and
    the raw count; a text that names neither the 21st nor the 22nd
    session keeps a raw count of 1 or more unchanged. *)
Theorem seniority_within_two_of_raw text ctx v :
  seniority_of_text text ctx = Ok (Some v) ->
  exists raw,
    raw_seniority text = Ok (Some raw) /\
    raw - 2 <= v <= Z.max 1 raw /\
    (contains (u "제21대") text = false ->
     contains (u "제22대") text = false ->
     1 <= raw -> v = raw).
Proof.
  rewrite seniority_of_text_defined.
  destruct (raw_seniority text) as [[raw|]|e]; try discriminate.
  intros [= <-]. exists raw. split; [reflexivity|].
  destruct (contains (u "제21대") text), (contains (u "제22대") text); cbn [b2z];
    destruct (ctx <=? 20), (ctx =? 21); split; try lia; intros; try discriminate; lia.
Qed.

Lemma first_key_in_first items text v :
  first_key_in items text = Some v ->
  exists before k after,
    items = before ++ (k, v) :: after /\
    contains k text = true /\
    Forall (fun kv => contains (fst kv) text = false) before.
Proof.
  induction items as [|[k' v'] items IH]; cbn [first_key_in]; [discriminate|].
  destruct (contains k' text) eqn:Ek.
  - intros [= <-]. exists [], k', items. split; [reflexivity|]. split; [exact Ek|constructor].
  - intros Hrest. destruct (IH Hrest) as (before & k & after & -> & Hk & Hb).
    exists ((k', v') :: before), k, after. split; [reflexivity|]. split; [exact Hk|].
    constructor; [exact Ek | exact Hb].
Qed.

(** When the text has no digit pattern, the raw count comes from the
    table of ordinal words: it is between 1 and 10 and belongs to the
    first word of the table, in table order, that occurs in the text,
    wherever the words stand in the text. *)
Theorem raw_seniority_from_words text v :
  re_search re_seniority text = None ->
  raw_seniority text = Ok (Some v) ->
  1 <= v <= 10 /\
  exists before k after,
    KOR_SEN_MAP = before ++ (k, v) :: after /\
    contains k text = true /\
    Forall (fun kv => contains (fst kv) text = false) before.
Proof.
  intros Hno. unfold raw_seniority. rewrite Hno. intros [= Hfirst].
  split; [|apply first_key_in_first, Hfirst].
  revert Hfirst. unfold KOR_SEN_MAP. cbn [first_key_in].
  repeat match goal with
         | |- context [if contains ?k text then _ else _] =>
             destruct (contains k text)
         end; intros [= <-]; lia.
Qed.

Lemma parse_member_seniority_events url ctx net :
  trace (parse_member_seniority url ctx net) =
  trace (fetch url RETRY false net) ++
  match outcome (fetch url RETRY false net) with
  | Ok resp =>
      match parsed resp with
      | Ok page =>
          if negb (truthy (seniority_text page)) then []
          else match seniority_of_text (seniority_text page) ctx with
               | Ok _ => []
               | Raise e => [LogMemberFail url e]
               end
      | Raise e => [LogMemberFail url e]
      end
  | Raise e => [LogMemberFail url e]
  end.
Proof.
  unfold parse_member_seniority. rewrite trace_catch, outcome_bind, trace_bind.
  destruct (outcome (fetch url RETRY false net)) as [resp|e]; [|reflexivity].
  rewrite outcome_BeautifulSoup, trace_BeautifulSoup.
  destruct (parsed resp) as [page|e]; [|rewrite app_nil_r; reflexivity].
  destruct (negb (truthy (seniority_text page))); [reflexivity|].
  cbn [lift outcome trace].
  destruct (seniority_of_text _ ctx); rewrite ?app_nil_r; reflexivity.
Qed.




(** The absent cases of [parse_member_seniority].  A fault of the
    fetch, and a fault of the parser on the fetched text, give [None]
    and one warning that carries the fault; a parsed page with no
    term-count text, or with a text that has neither the digit pattern
    nor an ordinal word, gives [None] without a warning. *)
Theorem member_seniority_absent url ctx net :
  (forall e,
     outcome (fetch url RETRY false net) = Raise e ->
     outcome (parse_member_seniority url ctx net) = Ok None /\
     trace (parse_member_seniority url ctx net) =
       trace (fetch url RETRY false net) ++ [LogMemberFail url e]) /\
  (forall resp e,
     outcome (fetch url RETRY false net) = Ok resp ->
     parsed resp = Raise e ->
     outcome (parse_member_seniority url ctx net) = Ok None /\
     trace (parse_member_seniority url ctx net) =
       trace (fetch url RETRY false net) ++ [LogMemberFail url e]) /\
  (forall resp page,
     outcome (fetch url RETRY false net) = Ok resp ->
     parsed resp = Ok page ->
     seniority_text page = [] \/
     raw_seniority (seniority_text page) = Ok None ->
     outcome (parse_member_seniority url ctx net) = Ok None /\
     trace (parse_member_seniority url ctx net) = trace (fetch url RETRY false net)).
Proof.
  split; [|split].
  - intros e Hf. rewrite parse_member_seniority_events, Hf.
    split; [|reflexivity].
    unfold parse_member_seniority. rewrite outcome_catch, outcome_bind, Hf.
    rewrite outcome_bind. reflexivity.
  - intros resp e Hf Hp.
    rewrite parse_member_seniority_events, (parse_member_seniority_fetched _ _ _ _ Hf),
      Hf, Hp. auto.
  - intros resp page Hf Hp Habsent.
    rewrite parse_member_seniority_events, (parse_member_seniority_fetched _ _ _ _ Hf),
      Hf, Hp.
    destruct Habsent as [Hempty|Hnone].
    + rewrite Hempty. cbn. rewrite app_nil_r. auto.
    + destruct (negb (truthy _)); [rewrite app_nil_r; auto|].
      rewrite seniority_of_text_defined, Hnone, app_nil_r. auto.
Qed.

End SeniorityFacts.

Lemma seniority_monotone_in_context_witness :
  @seniority_of_text ascii_tables (u "3선 (제20대, 제21대, 제22대)") 20 = Ok (Some 1) /\
  @seniority_of_text ascii_tables (u "3선 (제20대, 제21대, 제22대)") 21 = Ok (Some 2) /\
  1 <= 2.
Proof.
  assert (E1 : @seniority_of_text ascii_tables (u "3선 (제20대, 제21대, 제22대)") 20
               = Ok (Some 1)) by (vm_compute; reflexivity).
  assert (E2 : @seniority_of_text ascii_tables (u "3선 (제20대, 제21대, 제22대)") 21
               = Ok (Some 2)) by (vm_compute; reflexivity).
  split; [exact E1|]. split; [exact E2|].
  refine (proj1 (@seniority_monotone_in_context ascii_tables
                   (u "3선 (제20대, 제21대, 제22대)") 20 21 _) 1 2 E1 E2). lia.
Defined.

Lemma seniority_within_two_of_raw_witness :
  exists raw,
    @raw_seniority ascii_tables (u "3선 (제20대, 제21대, 제22대)") = Ok (Some raw) /\
    raw - 2 <= 1 <= Z.max 1 raw.
Proof.
  destruct (@seniority_within_two_of_raw ascii_tables
              (u "3선 (제20대, 제21대, 제22대)") 20 1) as (raw & Hraw & Hb & _).
  - vm_compute. reflexivity.
  - exists raw. split; [exact Hraw | exact Hb].
Defined.

Lemma raw_seniority_from_words_witness :
  @raw_seniority ascii_tables (u "재선 (제20대, 제21대)") = Ok (Some 2) /\ 1 <= 2 <= 10.
Proof.
  assert (E : @raw_seniority ascii_tables (u "재선 (제20대, 제21대)") = Ok (Some 2))
    by (vm_compute; reflexivity).
  split; [exact E|].
  refine (proj1 (@raw_seniority_from_words ascii_tables (u "재선 (제20대, 제21대)") 2 _ E)).
  vm_compute. reflexivity.
Defined.

Lemma member_seniority_absent_witness :
  @outcome Sample.down _
    (@parse_member_seniority ascii_tables Sample.down Sample.member_url 21 tt) = Ok None.
Proof.
  refine (proj1 (proj1 (@member_seniority_absent ascii_tables Sample.down
                          Sample.member_url 21 tt) Sample.timeout _)).
  vm_compute. reflexivity.
Defined.

(** ** Page probes: faults, requests and URLs *)

Section ProbeFacts.
Context `{Network}.

Lemma try_candidates_total cands base page net :
  exists found, outcome (try_candidates cands base page net) = Ok found.
Proof.
  revert net. induction cands as [|c cands IH]; intros net; cbn [try_candidates].
  - eexists. reflexivity.
  - rewrite outcome_bind.
    destruct (try_candidate_run base c page net) as (-> & _ & _).
    destruct (Spec.listing_under base page c net); [eexists; reflexivity | apply IH].
Qed.

Lemma fetch_then_parse_trace url net :
  trace ((fetch url RETRY true ≫= BeautifulSoup) net) = trace (fetch url RETRY true net).
Proof.
  rewrite trace_bind. destruct (outcome (fetch url RETRY true net)); [|reflexivity].
  cbn. apply app_nil_r.
Qed.

(** A fault while a candidate name is tried, of the fetch or of the
    parser, never aborts the probe: the candidate loop always ends
    without raising.  [proposer_soup] raises only when no candidate
    showed a listing and either the request of the bare base URL failed
    or the parser refused its text, and then it raises that fault; when
    that request succeeds, the probe returns what the parser makes of
    its text. *)
Theorem probe_raises_only_from_fallback bid base page net :
  (forall cands, exists found, outcome (try_candidates cands base page net) = Ok found) /\
  (forall e,
     outcome (proposer_soup bid base page net) = Raise e ->
     outcome (try_candidates candidates base page net) = Ok None /\
     (outcome (fetch base RETRY true
                 (final (try_candidates candidates base page net))) = Raise e \/
      exists resp,
        outcome (fetch base RETRY true
                   (final (try_candidates candidates base page net))) = Ok resp /\
        parsed resp = Raise e)) /\
  (forall resp,
     outcome (try_candidates candidates base page net) = Ok None ->
     outcome (fetch base RETRY true
                (final (try_candidates candidates base page net))) = Ok resp ->
     outcome (proposer_soup bid base page net) = parsed resp).
Proof.
  split; [intros cands; apply try_candidates_total|].
  unfold proposer_soup. rewrite outcome_bind.
  destruct (try_candidates_total candidates base page net) as [[s|] ->].
  - split; [discriminate|]. intros resp [=].
  - rewrite outcome_bind. split.
    + intros e. destruct (outcome (fetch base RETRY true _)) as [resp|e'].
      * cbn [BeautifulSoup lift outcome]. intros Hp. split; [reflexivity|].
        right. exists resp. auto.
      * intros [= <-]. auto.
    + intros resp _ ->. reflexivity.
Qed.

Lemma try_candidates_requested cands base page net :
  Forall (fun url => exists c, c ∈ cands /\ url = page_url base c page)
    (Spec.requested (trace (try_candidates cands base page net))) /\
  (length (Spec.requested (trace (try_candidates cands base page net)))
   <= 4 * length cands)%nat.
Proof.
  revert net. induction cands as [|c cands IH]; intros net; cbn [try_candidates].
  - cbn. split; [constructor | lia].
  - rewrite trace_bind.
    destruct (try_candidate_run base c page net) as (_ & Hf & Ht).
    destruct (fetch_requested (page_url base c page) RETRY true net) as [Hurl Hlen].
    change (Z.to_nat RETRY) with 3%nat in Hlen.
    assert (Hhere : Forall (fun url => exists c0, c0 ∈ c :: cands /\
                                                   url = page_url base c0 page)
                      (Spec.requested (trace (fetch (page_url base c page) RETRY true net)))).
    { eapply Forall_impl; [exact Hurl|]. intros url ->. exists c.
      split; [apply elem_of_cons; auto | reflexivity]. }
    destruct (outcome (try_candidate base c page net)) as [[s|]|e].
    + cbn [trace ret]. rewrite app_nil_r, Ht. split; [exact Hhere | cbn [length]; lia].
    + rewrite requested_app, Ht, Hf.
      destruct (IH (final (fetch (page_url base c page) RETRY true net)))
        as [Hrest Hrlen].
      split.
      * apply Forall_app. split; [exact Hhere|].
        eapply Forall_impl; [exact Hrest|]. intros url (c0 & Hc0 & ->).
        exists c0. split; [apply elem_of_cons; auto | reflexivity].
      * rewrite length_app. cbn [length]. lia.
    + rewrite Ht. split; [exact Hhere | cbn [length]; lia].
Qed.

(** A probe of one page requests only that page under the candidate
    names and, at the end, the bare base URL; it makes at most 24
    requests (six URLs, four requests each). *)
Theorem probe_requests_bounded bid base page net :
  Forall (Spec.probe_url base page)
    (Spec.requested (trace (proposer_soup bid base page net))) /\
  (length (Spec.requested (trace (proposer_soup bid base page net))) <= 24)%nat.
Proof.
  unfold proposer_soup. rewrite trace_bind.
  destruct (try_candidates_requested candidates base page net) as [Hc Hlen].
  change (length candidates) with 5%nat in Hlen.
  assert (Hprobe : Forall (Spec.probe_url base page)
            (Spec.requested (trace (try_candidates candidates base page net)))).
  { eapply Forall_impl; [exact Hc|]. intros url Hurl. right. exact Hurl. }
  destruct (outcome (try_candidates candidates base page net)) as [[s|]|e].
  - cbn [trace ret]. rewrite app_nil_r. split; [exact Hprobe | lia].
  - change (fun resp : Response => BeautifulSoup resp) with BeautifulSoup.
    rewrite requested_app, fetch_then_parse_trace.
    destruct (fetch_requested base RETRY true
                (final (try_candidates candidates base page net))) as [Hb Hblen].
    change (Z.to_nat RETRY) with 3%nat in Hblen.
    split.
    + apply Forall_app. split; [exact Hprobe|].
      eapply Forall_impl; [exact Hb|]. intros url ->. left. reflexivity.
    + rewrite length_app. lia.
  - split; [exact Hprobe | lia].
Qed.

End ProbeFacts.

(** ** Page URLs *)

Section PageUrls.

Lemma uint_digits_inj d1 d2 : uint_digits d1 = uint_digits d2 -> d1 = d2.
Proof.
  revert d2. induction d1; intros d2; destruct d2; cbn [uint_digits]; intros E;
    try discriminate E; try reflexivity; injection E as E; f_equal; auto.
Qed.

Lemma uint_digits_no_sign d rest : uint_digits d <> 45 :: rest.
Proof. destruct d; cbn [uint_digits]; discriminate. Qed.

Lemma str_of_int_inj n1 n2 : str_of_int n1 = str_of_int n2 -> n1 = n2.
Proof.
  unfold str_of_int. intros E.
  destruct (Z.to_int n1) as [d1|d1] eqn:E1, (Z.to_int n2) as [d2|d2] eqn:E2.
  - apply uint_digits_inj in E. subst d2. apply DecimalZ.to_int_inj. congruence.
  - exfalso. exact (uint_digits_no_sign _ _ E).
  - exfalso. exact (uint_digits_no_sign _ _ (eq_sym E)).
  - injection E as E. apply uint_digits_inj in E. subst d2.
    apply DecimalZ.to_int_inj. congruence.
Qed.

(** The URLs of a page walk never collide: two probes share a URL only
    if they use the same candidate name and the same page number, and
    no probe URL is the bare base URL.  The response cache, keyed by
    URL, therefore never answers one page with another. *)
Theorem probe_urls_distinct base c1 c2 page1 page2 :
  c1 ∈ candidates -> c2 ∈ candidates ->
  (page_url base c1 page1 = page_url base c2 page2 -> c1 = c2 /\ page1 = page2) /\
  page_url base c1 page1 <> base.
Proof.
  intros Hc1 Hc2. split.
  - unfold page_url. intros E. apply app_inv_head in E.
    assert (Hs : c1 = c2 /\ str_of_int page1 = str_of_int page2).
    { revert E. generalize (str_of_int page1) as s1, (str_of_int page2) as s2.
      intros s1 s2 E. unfold candidates in Hc1, Hc2.
      rewrite !elem_of_cons, elem_of_nil in Hc1, Hc2.
      destruct Hc1 as [->|[->|[->|[->|[->|[]]]]]];
        destruct Hc2 as [->|[->|[->|[->|[->|[]]]]]];
        vm_compute in E; first [discriminate E | split; [reflexivity | congruence]]. }
    destruct Hs as [-> Hs]. split; [reflexivity | apply str_of_int_inj, Hs].
  - unfold page_url. intros E.
    apply (f_equal length) in E. rewrite !length_app in E.
    assert (0 < length (u "&"))%nat by (vm_compute; lia). lia.
Qed.

End PageUrls.

Lemma probe_urls_distinct_witness :
  page_url Sample.base_url (u "pageIndex") 2 <> Sample.base_url.
Proof.
  refine (proj2 (probe_urls_distinct Sample.base_url (u "pageIndex") (u "pageNo") 2 2 _ _));
    unfold candidates; rewrite !elem_of_cons; auto.
Defined.

(** ** The collected listing *)

Section ListingFacts.
Context `{Unicode} `{Network}.

Lemma soups_of_pages_length bid base pages net soups :
  outcome (Spec.soups_of_pages bid base pages net) = Ok soups ->
  length soups = length pages.
Proof.
  revert net soups. induction pages as [|p pages IH]; intros net soups;
    cbn [Spec.soups_of_pages].
  - intros [= <-]. reflexivity.
  - rewrite outcome_bind.
    destruct (outcome (proposer_soup bid base p net)) as [s|e]; [|discriminate].
    rewrite outcome_bind.
    destruct (outcome (Spec.soups_of_pages bid base pages _)) as [rest|e] eqn:Er;
      [|discriminate].
    intros [= <-]. cbn [length]. f_equal. eapply IH, Er.
Qed.

Lemma member_hrefs_nonempty soups :
  Forall (fun link => link <> []) (flat_map Spec.member_hrefs soups).
Proof.
  apply Forall_forall. intros link Hin.
  apply list_elem_of_In, in_flat_map in Hin. destruct Hin as (s & _ & Hin).
  apply list_elem_of_In in Hin. unfold Spec.member_hrefs in Hin.
  apply list_elem_of_omap in Hin as (a & _ & Ha).
  destruct (tag_get a (u "href")) as [[|c href]|]; try discriminate.
  injection Ha as <-. discriminate.
Qed.

(** What [collect_members_from_popup] returns, and when.  It returns
    exactly when the locator returns a base URL, the probe of page 1 on
    the network the locator left returns a page, the page count of that
    page can be read, and the probes of the [total - 1] further pages,
    made in order from the network page 1 left, all return.  The links
    and the party labels are then those of page 1 followed by those of
    the further pages, no link is empty, and the count is the number of
    links, duplicates included.  With a total of 1 or less, zero
    included, only page 1 is read. *)
Theorem collected_listing bid net links ps n :
  outcome (collect_members_from_popup bid net) = Ok (links, ps, n) <->
  exists base soup1 total later,
    let located := build_proposer_popup_url_from_detail bid net in
    let first := proposer_soup bid base 1 (final located) in
    let others :=
      Spec.soups_of_pages bid base (Spec.pages_from 2 (Z.to_nat (total - 1)))
        (final first) in
    outcome located = Ok base /\
    outcome first = Ok soup1 /\
    parse_total_pages soup1 = Ok total /\
    outcome others = Ok later /\
    length later = Z.to_nat (total - 1) /\
    (total <= 1 -> later = []) /\
    links = flat_map Spec.member_hrefs (soup1 :: later) /\
    ps = flat_map Spec.party_labels (soup1 :: later) /\
    n = length links /\
    Forall (fun link => link <> []) links.
Proof.
  rewrite collect_members_by_pages. unfold Spec.collect_by_pages.
  rewrite outcome_bind. split.
  - destruct (outcome (build_proposer_popup_url_from_detail bid net)) as [base|e];
      [|discriminate].
    rewrite outcome_bind.
    destruct (outcome (proposer_soup bid base 1 _)) as [soup1|e] eqn:E1; [|discriminate].
    rewrite outcome_bind. cbn [lift outcome final].
    destruct (parse_total_pages soup1) as [total|e] eqn:Et; [|discriminate].
    rewrite outcome_bind.
    destruct (outcome (Spec.soups_of_pages bid base _ _)) as [later|e] eqn:El;
      [|discriminate].
    intros [= <- <- <-].
    exists base, soup1, total, later. cbv zeta.
    pose proof (soups_of_pages_length _ _ _ _ _ El) as Hlen.
    unfold Spec.pages_from in Hlen. rewrite length_map, length_seq in Hlen.
    repeat split; auto.
    + intros Hle. replace (Z.to_nat (total - 1)) with O in Hlen by lia.
      destruct later; [reflexivity | discriminate].
    + exact (member_hrefs_nonempty (soup1 :: later)).
  - intros (base & soup1 & total & later & Hb & H1 & Ht & Hl & _ & _ & -> & -> & -> & _).
    rewrite Hb, outcome_bind, H1, outcome_bind. cbn [lift outcome final].
    rewrite Ht, outcome_bind, Hl. reflexivity.
Qed.

Lemma int_digits_nonneg acc g n :
  (forall c d, digit_value c = Some d -> 0 <= d) ->
  0 <= acc -> int_digits acc g = Some n -> 0 <= n.
Proof.
  intros Hd. revert acc. induction g as [|c g IH]; intros acc Hacc; cbn [int_digits].
  - intros [= <-]. exact Hacc.
  - destruct (digit_value c) as [d|] eqn:Ec; [|discriminate].
    apply IH. specialize (Hd c d Ec). lia.
Qed.

Lemma int_nonneg g n :
  (forall c d, digit_value c = Some d -> 0 <= d) -> int g = Ok n -> 0 <= n.
Proof.
  intros Hd. unfold int.
  destruct (match max_str_digits with Some limit => _ | None => _ end); [discriminate|].
  destruct g; [discriminate|].
  destruct (int_digits 0 _) eqn:E; [|discriminate].
  intros [= <-]. eapply int_digits_nonneg; [exact Hd | | exact E]. lia.
Qed.

Lemma link_numbers_nonneg links acc nums :
  (forall c d, digit_value c = Some d -> 0 <= d) ->
  Forall (fun n => 0 <= n) acc ->
  link_numbers links acc = Ok nums -> Forall (fun n => 0 <= n) nums.
Proof.
  intros Hd. revert acc. induction links as [|a links IH]; intros acc Hacc;
    cbn [link_numbers].
  - intros [= <-]. exact Hacc.
  - destruct (re_search re_fnSearch _) as [g|]; [|apply IH, Hacc].
    destruct (int g) as [n|e] eqn:En; cbn [rbind]; [|discriminate].
    apply IH. apply Forall_app. split; [exact Hacc|].
    constructor; [eapply int_nonneg; eassumption | constructor].
Qed.

(** With digit values that are not negative (as those of Unicode are),
    the total page count is never negative; read from the navigation
    links it is the largest link number or 1. *)
Theorem total_pages_not_negative soup n :
  (forall c d, digit_value c = Some d -> 0 <= d) ->
  parse_total_pages soup = Ok n -> 0 <= n.
Proof.
  intros Hd.
  assert (Hlinks : total_from_links soup = Ok n -> 0 <= n).
  { unfold total_from_links.
    destruct (link_numbers (select_paging_numbers soup) []) as [nums|e] eqn:El;
      cbn [rbind]; [|discriminate].
    apply (link_numbers_nonneg _ _ _ Hd) in El; [|constructor].
    destruct nums as [|first others]; intros [= <-]; [lia|].
    inversion El; subst. destruct (py_max_upper first others) as [Hup _]. lia. }
  unfold parse_total_pages.
  destruct (find_pager_pages_text soup) as [hidden|]; [|exact Hlinks].
  destruct (tag_get hidden (u "value")) as [value|]; [|exact Hlinks].
  destruct (re_search re_pager_total value) as [g|]; [|exact Hlinks].
  apply int_nonneg, Hd.
Qed.

End ListingFacts.

Lemma ascii_digit_values_nonneg c d :
  @digit_value ascii_tables c = Some d -> 0 <= d.
Proof.
  cbn. unfold ascii_digit_value.
  destruct (Z.leb_spec 48 c), (Z.leb_spec c 57); cbn; intros [= <-]; lia.
Qed.

Lemma collected_listing_witness :
  @outcome Sample.moody_site _
    (@collect_members_from_popup ascii_tables Sample.moody_site Sample.bill tt)
  = Ok ([Sample.member_url; Sample.member_url], [u "A"; u "A"], 2%nat).
Proof.
  apply (proj2 (@collected_listing ascii_tables Sample.moody_site Sample.bill tt
                  [Sample.member_url; Sample.member_url] [u "A"; u "A"] 2%nat)).
  exists Sample.base_url, Sample.page1, 2, [Sample.page1]. cbv zeta.
  split; [vm_compute; reflexivity|]. split; [vm_compute; reflexivity|].
  split; [vm_compute; reflexivity|]. split; [vm_compute; reflexivity|].
  split; [reflexivity|]. split; [lia|].
  split; [vm_compute; reflexivity|]. split; [vm_compute; reflexivity|].
  split; [reflexivity|]. repeat constructor; vm_compute; discriminate.
Defined.

Lemma total_pages_not_negative_witness :
  @parse_total_pages ascii_tables Sample.page1 = Ok 2 /\ 0 <= 2.
Proof.
  assert (E : @parse_total_pages ascii_tables Sample.page1 = Ok 2)
    by (vm_compute; reflexivity).
  split; [exact E|].
  exact (@total_pages_not_negative ascii_tables Sample.page1 2
           ascii_digit_values_nonneg E).
Defined.

(** ** One bill: what the members contribute *)

Section BillFacts.
Context `{Unicode} `{Network} `{FloatArith}.





End BillFacts.

(** ** Party set: composition *)

Section PartyFacts.

(** Taking the party set of a party set changes nothing; the party set
    is never longer than the list of labels; and it is empty exactly
    when every label is the empty string, which is when the row has no
    parties. *)
Theorem party_set_idempotent (labels : list str) :
  unique_parties (unique_parties labels) = unique_parties labels /\
  (length (unique_parties labels) <= length labels)%nat /\
  (unique_parties labels = [] <-> forall p, p ∈ labels -> p = []).
Proof.
  assert (Hnd : forall l, NoDup (unique_parties l)).
  { intros l. unfold unique_parties. rewrite merge_sort_Permutation.
    apply NoDup_elements. }
  split; [|split].
  - apply (Sorted_unique str_le).
    + apply Sorted_merge_sort; apply _.
    + apply Sorted_merge_sort; apply _.
    + apply NoDup_Permutation; [apply Hnd | apply Hnd |].
      intros x. rewrite !elem_of_unique_parties. tauto.
  - apply submseteq_length, NoDup_submseteq; [apply Hnd|].
    intros x Hx. apply elem_of_unique_parties in Hx. tauto.
  - split.
    + intros Hempty p Hp. destruct p as [|c p]; [reflexivity|].
      assert (Hin : (c :: p) ∈ unique_parties labels)
        by (apply elem_of_unique_parties; split; [exact Hp | discriminate]).
      rewrite Hempty in Hin. apply elem_of_nil in Hin. contradiction.
    + intros Hall. destruct (unique_parties labels) as [|x rest] eqn:E; [reflexivity|].
      assert (Hin : x ∈ unique_parties labels) by (rewrite E; apply elem_of_cons; auto).
      apply elem_of_unique_parties in Hin as [Hin Hne].
      exfalso. apply Hne, Hall, Hin.
Qed.

End PartyFacts.


Lemma party_set_idempotent_witness :
  unique_parties [[]; []] = [].
Proof.
  refine (proj2 (proj2 (proj2 (party_set_idempotent [[]; []]))) _).
  intros p Hp. rewrite !elem_of_cons, elem_of_nil in Hp. tauto.
Defined.

(** ** Popup locator: its requests *)

Section LocatorFacts.
Context `{Unicode} `{Network}.

(** The locator requests nothing but the detail page of the bill, at
    most four times, and leaves no other event than those of that
    fetch. *)
Theorem popup_locator_requests bid net :
  trace (build_proposer_popup_url_from_detail bid net) =
    trace (fetch (detail_url bid) RETRY true net) /\
  Forall (fun url => url = detail_url bid)
    (Spec.requested (trace (build_proposer_popup_url_from_detail bid net))) /\
  (length (Spec.requested (trace (build_proposer_popup_url_from_detail bid net)))
   <= 4)%nat.
Proof.
  assert (Ht : trace (build_proposer_popup_url_from_detail bid net) =
               trace (fetch (detail_url bid) RETRY true net)).
  { unfold build_proposer_popup_url_from_detail. rewrite trace_bind.
    destruct (outcome (fetch (detail_url bid) RETRY true net)) as [resp|e];
      [|reflexivity].
    rewrite trace_BeautifulSoup.
    destruct (parsed resp) as [page|e]; [|apply app_nil_r].
    destruct (find_proposer_anchor page) as [a|];
      [|cbn [trace ret mret M_ret]; apply app_nil_r].
    destruct (tag_get a (u "onclick")) as [onclick|];
      cbn [trace ret mret M_ret]; apply app_nil_r. }
  rewrite Ht. split; [reflexivity|].
  destruct (fetch_requested (detail_url bid) RETRY true net) as [Hurl Hlen].
  split; [exact Hurl | exact Hlen].
Qed.

End LocatorFacts.

(** ** Substring test *)

Section Substring.

Lemma startswith_prefix p s :
  startswith p s = true <-> exists rest, s = p ++ rest.
Proof.
  revert s. induction p as [|a p IH]; intros s; cbn [startswith].
  - split; [intros _; exists s; reflexivity | reflexivity].
  - destruct s as [|b s].
    + split; [discriminate | intros [rest Hr]; discriminate].
    + rewrite andb_true_iff, Z.eqb_eq, IH. split.
      * intros [-> [rest ->]]. exists rest. reflexivity.
      * intros [rest [= -> ->]]. split; [reflexivity | exists rest; reflexivity].
Qed.

(** [p in s] holds exactly when [p] occurs in [s] as a contiguous run
    of characters: a session marker counts when it stands anywhere in
    the profile text, and only then. *)
Theorem contains_iff_occurs p s :
  contains p s = true <-> exists before after, s = before ++ p ++ after.
Proof.
  induction s as [|c s IH]; cbn [contains]; rewrite orb_true_iff, startswith_prefix.
  - split.
    + intros [[rest Hr]|Hf]; [|discriminate]. exists [], rest. exact Hr.
    + intros (before & after & Hs). left.
      destruct before; [exists after; exact Hs | discriminate].
  - rewrite IH. split.
    + intros [[rest Hr]|(before & after & ->)].
      * exists [], rest. exact Hr.
      * exists (c :: before), after. reflexivity.
    + intros (before & after & Hs). destruct before as [|b before].
      * left. exists after. exact Hs.
      * right. injection Hs as -> ->. exists before, after. reflexivity.
Qed.

End Substring.

Lemma probe_raises_only_from_fallback_witness :
  @outcome Sample.down _
    (@try_candidates Sample.down candidates Sample.base_url 1 tt) = Ok None /\
  (@outcome Sample.down _
     (@fetch Sample.down Sample.base_url RETRY true
        (@final Sample.down _
           (@try_candidates Sample.down candidates Sample.base_url 1 tt)))
   = Raise Sample.timeout \/
   exists resp,
     @outcome Sample.down _
       (@fetch Sample.down Sample.base_url RETRY true
          (@final Sample.down _
             (@try_candidates Sample.down candidates Sample.base_url 1 tt)))
     = Ok resp /\ parsed resp = Raise Sample.timeout).
Proof.
  refine (proj1 (proj2 (@probe_raises_only_from_fallback Sample.down Sample.bill
                          Sample.base_url 1 tt)) Sample.timeout _).
  vm_compute. reflexivity.
Defined.

